(** * ARMA(p,q) likelihood by Kalman filtering: a shallow embedding of
    [arma.ipynb] and the proofs of its specification.

    The notebook defines three Python functions, [initialize_FGHQ],
    [log_likelihood] and [obj_func_likelihood].  They are embedded here as
    Rocq functions over NumPy-style two-dimensional arrays.  The arithmetic
    is kept abstract (class [Arith] and class [Transc]) so that every
    structural statement holds for whatever the scalar operations are, those
    of binary64 included; the statements that need the laws of the real
    numbers are proved for the instance over [R] and say so.  The objective
    is embedded a second time as a procedure on an explicit state (the
    globals and the arrays, with their addresses), to state what a call
    reads and what it leaves behind. *)

From Stdlib Require Import List Arith ZArith Lia Bool.
From Stdlib Require Import Reals Lra.
From Stdlib Require Import PrimFloat Uint63.
Import ListNotations.

Set Implicit Arguments.

(** ** Python exceptions and the error monad *)

(** The only exceptions the three functions can raise: a shape mismatch in
    [@], in a broadcast or in [.item()] ([ValueError]) and an index out of
    range ([IndexError]). *)
Inductive exn : Type :=
| ValueError
| IndexError.

Inductive result (A : Type) : Type :=
| Ok (v : A)
| Raise (e : exn).

Arguments Ok {A} v.
Arguments Raise {A} e.

Definition bind {A B : Type} (c : result A) (k : A -> result B) : result B :=
  match c with
  | Ok v => k v
  | Raise e => Raise e
  end.

Notation "x <- c ;; k" := (bind c (fun x => k))
  (at level 61, c at next level, right associativity).
Notation "' pat <- c ;; k" := (bind c (fun x => match x with pat => k end))
  (at level 61, pat pattern, c at next level, right associativity).

(** [for t in ts: s = body(s, t)] *)
Fixpoint for_each {S : Type} (body : S -> nat -> result S)
         (ts : list nat) (s : S) : result S :=
  match ts with
  | [] => Ok s
  | t :: ts' => s' <- body s t ;; for_each body ts' s'
  end.

(** ** Scalars *)

(** The float operations the notebook uses.  [of_Z] is the conversion of a
    Python [int] to a float, [half] the literal [0.5]. *)
Class Arith (T : Type) : Type := {
  of_Z : Z -> T;
  half : T;
  add : T -> T -> T;
  sub : T -> T -> T;
  mul : T -> T -> T;
  div : T -> T -> T;
  neg : T -> T
}.

(** [np.pi] and [np.log]. *)
Class Transc (T : Type) : Type := {
  pi : T;
  log : T -> T
}.

(** ** NumPy arrays *)

Section Numpy.
Context {T : Type} {ar : Arith T} {tr : Transc T}.

Definition zero : T := of_Z 0.
Definition one : T := of_Z 1.

(** A two-dimensional array is the list of its rows. *)
Definition matrix : Type := list (list T).

Definition nrows (A : matrix) : nat := length A.
(** [A.shape[1]]; an array without rows is given no columns here (the
    notebook has such arrays only as [e] and [r] when [N = 0], where the
    number of columns is never consulted). *)
Definition ncols (A : matrix) : nat := length (hd [] A).

(** [A] has shape [(n, m)]. *)
Definition wf (n m : nat) (A : matrix) : Prop :=
  length A = n /\ Forall (fun row => length row = m) A.

(** [A[i, j]], read without a bounds check (for statements). *)
Definition ent (A : matrix) (i j : nat) : T := nth j (nth i A []) zero.

(** [np.zeros((n, m))] *)
Definition zeros (n m : nat) : matrix := repeat (repeat zero m) n.

(** [np.eye(k)] *)
Definition eye (k : nat) : matrix :=
  map (fun i => map (fun j => if i =? j then one else zero) (seq 0 k))
      (seq 0 k).

(** [A.T] *)
Definition transpose (A : matrix) : matrix :=
  map (fun j => map (fun row => nth j row zero) A) (seq 0 (ncols A)).

(** The inner product of a row and a column, accumulated from the left. *)
Definition dot (u v : list T) : T :=
  fold_left (fun acc uv => add acc (mul (fst uv) (snd uv)))
            (combine u v) zero.

Definition mmul (A B : matrix) : matrix :=
  map (fun row => map (fun col => dot row col) (transpose B)) A.

(** [A @ B] *)
Definition matmul (A B : matrix) : result matrix :=
  if ncols A =? nrows B then Ok (mmul A B) else Raise ValueError.

(** Broadcasting of one dimension: equal lengths, or one of them is 1. *)
Definition bcast_dim (n m : nat) : option nat :=
  if n =? m then Some n
  else if n =? 1 then Some m
  else if m =? 1 then Some n
  else None.

Definition stretch {A : Type} (n : nat) (l : list A) : list A :=
  match l with
  | [v] => repeat v n
  | _ => l
  end.

Fixpoint map2 {A B C : Type} (f : A -> B -> C)
         (u : list A) (v : list B) : list C :=
  match u, v with
  | a :: u', b :: v' => f a b :: map2 f u' v'
  | _, _ => []
  end.

(** An elementwise binary operation on two-dimensional arrays, with
    NumPy's broadcasting. *)
Definition elementwise (op : T -> T -> T) (A B : matrix) : result matrix :=
  match bcast_dim (nrows A) (nrows B), bcast_dim (ncols A) (ncols B) with
  | Some n, Some m =>
      Ok (map2 (map2 op) (stretch n (map (stretch m) A))
                         (stretch n (map (stretch m) B)))
  | _, _ => Raise ValueError
  end.

(** [A * c] for a Python scalar [c]. *)
Definition scale (A : matrix) (c : T) : matrix :=
  map (map (fun v => mul v c)) A.

(** [A ** 2], which NumPy computes as [A * A] *)
Definition square (A : matrix) : matrix :=
  map (map (fun v => mul v v)) A.

(** [np.sum(A)], accumulated from the left (NumPy adds pairwise, which
    differs in rounding only) *)
Definition np_sum (A : matrix) : T := fold_left add (concat A) zero.

(** [f 0 + ... + f (n - 1)], added in this order starting from [0]. *)
Definition sum_upto (f : nat -> T) (n : nat) : T :=
  fold_left add (map f (seq 0 n)) zero.

(** [A.item()] *)
Definition item (A : matrix) : result T :=
  match A with
  | [[v]] => Ok v
  | _ => Raise ValueError
  end.

(** [l[i]] for a sequence [l] *)
Definition getitem {A : Type} (l : list A) (i : nat) : result A :=
  match nth_error l i with
  | Some v => Ok v
  | None => Raise IndexError
  end.

Fixpoint update {A : Type} (l : list A) (i : nat) (v : A) : list A :=
  match l, i with
  | [], _ => []
  | _ :: l', O => v :: l'
  | a :: l', S i' => a :: update l' i' v
  end.

(** [A[i, j] = v] *)
Definition setitem (A : matrix) (i j : nat) (v : T) : result matrix :=
  match nth_error A i with
  | Some row =>
      if j <? length row then Ok (update A i (update row j v))
      else Raise IndexError
  | None => Raise IndexError
  end.

(** [A[t] = v]: the scalar [v] is broadcast over row [t]. *)
Definition setrow (A : matrix) (t : nat) (v : T) : result matrix :=
  match nth_error A t with
  | Some row => Ok (update A t (map (fun _ => v) row))
  | None => Raise IndexError
  end.

(** ** [initialize_FGHQ] *)

Definition initialize_FGHQ (a b : list T)
  : result (matrix * matrix * matrix * matrix) :=
  let p := length a in
  let q := length b in
  let k := Nat.max p (q + 1) in
  let F := zeros k k in
  let G := zeros k 1 in
  let H := zeros 1 k in
  F <- for_each (fun F i => ai <- getitem a i ;; setitem F i 0 ai)
                (seq 0 p) F ;;
  F <- for_each (fun F i => setitem F i (i + 1) one) (seq 0 (k - 1)) F ;;
  G <- for_each (fun G i => bi <- getitem b i ;; setitem G (i + 1) 0 (neg bi))
                (seq 0 q) G ;;
  G <- setitem G 0 0 one ;;
  H <- setitem H 0 0 one ;;
  let Q := eye k in
  Ok (F, G, H, Q).


(** ** The Kalman recursion (the loop of [obj_func_likelihood]) *)

(** The local variables the loop carries. *)
Record fstate : Type := mk_fstate {
  st_x : matrix;
  st_V : matrix;
  st_e : matrix;
  st_r : matrix
}.

(** [x_predict = F @ x] and [V_predict = F @ V @ F.T + G @ G.T] *)
Definition kalman_predict (F G x V : matrix) : result (matrix * matrix) :=
  x_predict <- matmul F x ;;
  FV <- matmul F V ;;
  FVFt <- matmul FV (transpose F) ;;
  GGt <- matmul G (transpose G) ;;
  V_predict <- elementwise add FVFt GGt ;;
  Ok (x_predict, V_predict).

(** One pass through the body of [for t in range(N)]. *)
Definition kalman_body (k : nat) (F G H : matrix) (y : list T)
           (s : fstate) (t : nat) : result fstate :=
  '(x_predict, V_predict) <- kalman_predict F G (st_x s) (st_V s) ;;
  (* e[t] = y[t] - (H @ x_predict).item() *)
  yt <- getitem y t ;;
  Hx <- matmul H x_predict ;;
  hx <- item Hx ;;
  e <- setrow (st_e s) t (sub yt hx) ;;
  (* r[t] = (H @ V_predict @ H.T).item() *)
  HV <- matmul H V_predict ;;
  HVHt <- matmul HV (transpose H) ;;
  rv <- item HVHt ;;
  r <- setrow (st_r s) t rv ;;
  (* K = V_predict @ H.T / r[t] *)
  VHt <- matmul V_predict (transpose H) ;;
  rt <- getitem r t ;;
  K <- elementwise div VHt [rt] ;;
  (* x = x_predict + K * e[t] *)
  et <- getitem e t ;;
  Ke <- elementwise mul K [et] ;;
  x <- elementwise add x_predict Ke ;;
  (* V = (np.eye(k) - K @ H) @ V_predict *)
  KH <- matmul K H ;;
  IKH <- elementwise sub (eye k) KH ;;
  V <- matmul IKH V_predict ;;
  Ok (mk_fstate x V e r).

(** The values of [x], [V], [e] and [r] before the loop. *)
Definition kalman_init (k N : nat) : fstate :=
  mk_fstate (zeros k 1) (scale (eye k) (of_Z 100)) (zeros N 1) (zeros N 1).

(** The loop stopped after its first [t] passes. *)
Definition kalman_run (k N : nat) (F G H : matrix) (y : list T) (t : nat)
  : result fstate :=
  for_each (kalman_body k F G H y) (seq 0 t) (kalman_init k N).

(** The whole loop; it leaves the innovations [e] and their variances [r]. *)
Definition kalman_filter (k N : nat) (F G H : matrix) (y : list T)
  : result (matrix * matrix) :=
  s <- kalman_run k N F G H y N ;;
  Ok (st_e s, st_r s).

(** ** [log_likelihood] *)

Definition log_likelihood (sigma_hat : T) (r : matrix) : result T :=
  let N := of_Z (Z.of_nat (length r)) in
  Ok (mul (neg half)
          (add (add (add (mul N (log (mul (of_Z 2) pi)))
                         (mul N (log sigma_hat)))
                    (np_sum (map (map log) r)))
               N)).

(** ** [obj_func_likelihood] *)

(** The notebook's globals [N] and [y], which the objective reads. *)
Record globals : Type := mk_globals {
  g_N : nat;
  g_y : list T
}.

(** [sigma_hat = np.sum(e**2 / r) / N] *)
Definition sigma_hat_of (N : nat) (e r : matrix) : result T :=
  w <- elementwise div (square e) r ;;
  Ok (div (np_sum w) (of_Z (Z.of_nat N))).

(** The objective with its two local constants [p] and [q] as arguments. *)
Definition obj_func_likelihood_pq (p q : nat) (env : globals)
           (theta : list T) : result T :=
  let a := firstn p theta in
  let b := firstn q (skipn p theta) in
  let k := Nat.max p (q + 1) in
  '(F, G, H, Q) <- initialize_FGHQ a b ;;
  '(e, r) <- kalman_filter k (g_N env) F G H (g_y env) ;;
  sigma_hat <- sigma_hat_of (g_N env) e r ;;
  log_lik <- log_likelihood sigma_hat r ;;
  Ok (neg log_lik).

(** The notebook fixes [p = 3] and [q = 2]. *)
Definition obj_func_likelihood (env : globals) (theta : list T) : result T :=
  obj_func_likelihood_pq 3 2 env theta.

(** ** The recursion as the specification words it

    The same recursion written as a recurrence on the pair [(x, V)], with
    total matrix operations; theorems below relate the loop to it. *)

Definition ew (op : T -> T -> T) (A B : matrix) : matrix :=
  map2 (map2 op) A B.

Definition spec_x_pred (F x : matrix) : matrix := mmul F x.

Definition spec_V_pred (F G V : matrix) : matrix :=
  ew add (mmul (mmul F V) (transpose F)) (mmul G (transpose G)).

Definition spec_e (H : matrix) (yt : T) (x_pred : matrix) : T :=
  sub yt (ent (mmul H x_pred) 0 0).

Definition spec_r (H V_pred : matrix) : T :=
  ent (mmul (mmul H V_pred) (transpose H)) 0 0.

Definition spec_K (H V_pred : matrix) (r : T) : matrix :=
  map (map (fun v => div v r)) (mmul V_pred (transpose H)).

Definition spec_update (k : nat) (F G H : matrix) (yt : T)
           (xV : matrix * matrix) : matrix * matrix :=
  let x_pred := spec_x_pred F (fst xV) in
  let V_pred := spec_V_pred F G (snd xV) in
  let e := spec_e H yt x_pred in
  let r := spec_r H V_pred in
  let K := spec_K H V_pred r in
  (ew add x_pred (scale K e), mmul (ew sub (eye k) (mmul K H)) V_pred).

(** [(x, V)] after [t] steps, from [x = 0] and [V = 100 I]. *)
Fixpoint spec_state (k : nat) (F G H : matrix) (y : list T) (t : nat)
  : matrix * matrix :=
  match t with
  | O => (zeros k 1, scale (eye k) (of_Z 100))
  | S t' => spec_update k F G H (nth t' y zero) (spec_state k F G H y t')
  end.

(** The array [e] (or [r]) once its first [t] rows have been assigned the
    values [f 0 .. f (t - 1)]: the other [N - t] rows still hold zero. *)
Definition filled (N : nat) (f : nat -> T) (t : nat) : matrix :=
  map (fun i => [f i]) (seq 0 t) ++ zeros (N - t) 1.

Definition spec_e_at (k : nat) (F G H : matrix) (y : list T) (t : nat) : T :=
  spec_e H (nth t y zero) (spec_x_pred F (fst (spec_state k F G H y t))).

Definition spec_r_at (k : nat) (F G H : matrix) (y : list T) (t : nat) : T :=
  spec_r H (spec_V_pred F G (snd (spec_state k F G H y t))).

End Numpy.

Arguments matrix : clear implicits.

(** ** The scalars as real numbers

    Exact arithmetic: no rounding, no overflow, no NaN.  What is proved for
    this instance is proved of the recursion in exact arithmetic, which
    binary64 follows up to the rounding of each operation.  Where binary64
    can differ by more than that (the sign of a variance, the domain of
    the logarithm) the statements take the condition as a hypothesis on
    the run.  [ln] is total in the Standard Library ([ln x = 0] for
    [x <= 0]) where [np.log] returns [-inf] or [nan]: a statement that
    uses the value of [log] at an argument assumes the argument positive. *)

#[export] Instance R_Arith : Arith R := {|
  of_Z := IZR;
  half := (1 / 2)%R;
  add := Rplus;
  sub := Rminus;
  mul := Rmult;
  div := Rdiv;
  neg := Ropp
|}.

#[export] Instance R_Transc : Transc R := {|
  pi := PI;
  log := ln
|}.

(** ** The scalars as binary64 floats *)

(** The conversion of a Python [int] below [2^63] in absolute value. *)
Definition float_of_Z (z : Z) : float :=
  match z with
  | Z0 => 0%float
  | Zpos _ => PrimFloat.of_uint63 (Uint63.of_Z z)
  | Zneg p => PrimFloat.opp (PrimFloat.of_uint63 (Uint63.of_Z (Zpos p)))
  end.

#[export] Instance float_Arith : Arith float := {|
  of_Z := float_of_Z;
  half := 0.5%float;
  add := PrimFloat.add;
  sub := PrimFloat.sub;
  mul := PrimFloat.mul;
  div := PrimFloat.div;
  neg := PrimFloat.opp
|}.

(** ** The formulas of the specification over the real numbers *)

Definition Rmatrix : Type := list (list R).

(** [f 0 + ... + f (n - 1)] *)
Fixpoint Rsum (f : nat -> R) (n : nat) : R :=
  match n with
  | O => 0%R
  | S n' => (Rsum f n' + f n')%R
  end.

(** The profiled noise variance, [(1/N) Σ e[t]² / r[t]]. *)
Definition sigma2_spec (N : nat) (e r : Rmatrix) : R :=
  (1 / INR N * Rsum (fun t => (ent e t 0) ^ 2 / ent r t 0) N)%R.

(** The concentrated log-likelihood,
    [-0.5 (N log(2π) + N log σ̂² + Σ log r[t] + N)]. *)
Definition logL_spec (N : nat) (e r : Rmatrix) : R :=
  (- (1 / 2) * (INR N * ln (2 * PI) + INR N * ln (sigma2_spec N e r)
                + Rsum (fun t => ln (ent r t 0)) N + INR N))%R.

(** The quadratic form [zᵗ V z] of a [k × k] array. *)
Definition quad (k : nat) (V : Rmatrix) (z : nat -> R) : R :=
  Rsum (fun i => Rsum (fun j => z i * ent V i j * z j) k)%R k.

Definition symmetric (k : nat) (V : Rmatrix) : Prop :=
  forall i j, i < k -> j < k -> ent V i j = ent V j i.

Definition psd (k : nat) (V : Rmatrix) : Prop :=
  forall z : nat -> R, (0 <= quad k V z)%R.

(** ** Bilinear forms, for the proofs about covariances *)

(** [uᵗ a w] for an [n × m] table of entries [a]. *)
Definition bilf (n m : nat) (a : nat -> nat -> R) (u w : nat -> R) : R :=
  Rsum (fun i => Rsum (fun j => u i * a i j * w j) m)%R n.

(** The entries of a product with inner dimension [m]. *)
Definition fprod (m : nat) (a b : nat -> nat -> R) : nat -> nat -> R :=
  fun i j => Rsum (fun l => a i l * b l j)%R m.

(** The row vector [uᵗ a] and the column vector [b w]. *)
Definition vecmat (n : nat) (u : nat -> R) (a : nat -> nat -> R) : nat -> R :=
  fun l => Rsum (fun i => u i * a i l)%R n.

Definition matvec (p : nat) (b : nat -> nat -> R) (w : nat -> R) : nat -> R :=
  fun l => Rsum (fun j => b l j * w j)%R p.

(** The covariance after the update, [(I - K H) P] with [K = P Hᵗ / r]. *)
Definition updated (k : nat) (H P : Rmatrix) (r : R) : Rmatrix :=
  mmul (ew sub (eye k) (mmul (spec_K H P r) H)) P.

(** ** The objective as a procedure on the interpreter's state

    A call of the objective runs in a state that outlives it: the module
    globals [N] and [y], and the arrays that exist when it is called.  Here
    that state is explicit.  An array is an object with an address: the
    one-dimensional ones ([theta], [y]) and the two-dimensional ones are
    kept apart, as the code never uses one for the other.  The arrays a call
    assigns into ([F], [G], [H], [e], [r]) are allocated by it and written
    in place; [a] and [b] are views of [theta], read through [theta] each
    time; [x], [V] and the temporaries are rebound to new arrays and never
    assigned into, so they are carried as values.  Nothing is freed: what
    a call has allocated stays behind, out of reach. *)

Section Procedure.
Context {T : Type} {ar : Arith T} {tr : Transc T}.

Record store : Type := mk_store {
  glob_N : nat;
  glob_y : nat;
  vectors : list (list T);
  arrays : list (matrix T)
}.

(** A computation that may raise, and leaves a state either way. *)
Definition proc (A : Type) : Type := store -> result A * store.

Definition ret_p {A : Type} (v : A) : proc A := fun s => (Ok v, s).

Definition bind_p {A B : Type} (c : proc A) (k : A -> proc B) : proc B :=
  fun s =>
    match c s with
    | (Ok v, s') => k v s'
    | (Raise e, s') => (Raise e, s')
    end.

Notation "x <~ c ;; k" := (bind_p c (fun x => k))
  (at level 61, c at next level, right associativity).

(** An operation on values, which may raise but touches no state. *)
Definition lift_p {A : Type} (c : result A) : proc A := fun s => (c, s).

(** [np.zeros(...)], [np.eye(...)]: a new array, at a fresh address. *)
Definition new_array (A : matrix T) : proc nat :=
  fun s => (Ok (length (arrays s)),
            mk_store (glob_N s) (glob_y s) (vectors s) (arrays s ++ [A])).

(** The array a name is bound to. *)
Definition array_at (p : nat) : proc (matrix T) :=
  fun s => (Ok (nth p (arrays s) []), s).

Definition vector_at (p : nat) : proc (list T) :=
  fun s => (Ok (nth p (vectors s) []), s).

(** The array at [p] is overwritten in place. *)
Definition assign_at (p : nat) (A : matrix T) : proc unit :=
  fun s => (Ok tt, mk_store (glob_N s) (glob_y s) (vectors s)
                            (update (arrays s) p A)).

(** The globals [N] and [y], looked up when they are used. *)
Definition global_N : proc nat := fun s => (Ok (glob_N s), s).
Definition global_y : proc nat := fun s => (Ok (glob_y s), s).

(** [A[i, j] = v] and [A[t] = v] on the array at [p]. *)
Definition setitem_p (p i j : nat) (v : T) : proc unit :=
  A <~ array_at p ;;
  A' <~ lift_p (setitem A i j v) ;;
  assign_at p A'.

Definition setrow_p (p t : nat) (v : T) : proc unit :=
  A <~ array_at p ;;
  A' <~ lift_p (setrow A t v) ;;
  assign_at p A'.

(** The view [theta[start:stop]] of the one-dimensional array at [base]. *)
Record view : Type := mk_view {
  v_base : nat;
  v_start : nat;
  v_stop : nat
}.

Definition slice (start stop : nat) (l : list T) : list T :=
  firstn (stop - start) (skipn start l).

Definition view_read (w : view) : proc (list T) :=
  l <~ vector_at (v_base w) ;;
  ret_p (slice (v_start w) (v_stop w) l).

(** [len(a)] and [a[i]] for a view [a]. *)
Definition len_p (w : view) : proc nat :=
  l <~ view_read w ;; ret_p (length l).

Definition getitem_p (w : view) (i : nat) : proc T :=
  l <~ view_read w ;; lift_p (getitem l i).

Fixpoint for_each_p {S : Type} (body : S -> nat -> proc S)
         (ts : list nat) (s : S) : proc S :=
  match ts with
  | [] => ret_p s
  | t :: ts' => s' <~ body s t ;; for_each_p body ts' s'
  end.

(** [initialize_FGHQ(a, b)], returning the addresses of [F], [G], [H]
    and [Q]. *)
Definition initialize_FGHQ_p (a b : view) : proc (nat * nat * nat * nat) :=
  p <~ len_p a ;;
  q <~ len_p b ;;
  let k := Nat.max p (q + 1) in
  F <~ new_array (zeros k k) ;;
  G <~ new_array (zeros k 1) ;;
  H <~ new_array (zeros 1 k) ;;
  _ <~ for_each_p (fun _ i => ai <~ getitem_p a i ;; setitem_p F i 0 ai)
                  (seq 0 p) tt ;;
  _ <~ for_each_p (fun _ i => setitem_p F i (i + 1) one) (seq 0 (k - 1)) tt ;;
  _ <~ for_each_p (fun _ i => bi <~ getitem_p b i ;;
                              setitem_p G (i + 1) 0 (neg bi))
                  (seq 0 q) tt ;;
  _ <~ setitem_p G 0 0 one ;;
  _ <~ setitem_p H 0 0 one ;;
  Q <~ new_array (eye k) ;;
  ret_p (F, G, H, Q).

(** One pass of the loop.  [F], [G], [H], [e] and [r] are the arrays at
    the addresses the locals are bound to; [xV] holds the current [x]
    and [V]. *)
Definition kalman_body_p (k F G H e r : nat)
           (xV : matrix T * matrix T) (t : nat)
  : proc (matrix T * matrix T) :=
  vF <~ array_at F ;;
  vG <~ array_at G ;;
  xpVp <~ lift_p (kalman_predict vF vG (fst xV) (snd xV)) ;;
  let x_predict := fst xpVp in
  let V_predict := snd xpVp in
  (* e[t] = y[t] - (H @ x_predict).item() *)
  y <~ global_y ;;
  vy <~ vector_at y ;;
  yt <~ lift_p (getitem vy t) ;;
  vH <~ array_at H ;;
  Hx <~ lift_p (matmul vH x_predict) ;;
  hx <~ lift_p (item Hx) ;;
  _ <~ setrow_p e t (sub yt hx) ;;
  (* r[t] = (H @ V_predict @ H.T).item() *)
  vH <~ array_at H ;;
  HV <~ lift_p (matmul vH V_predict) ;;
  HVHt <~ lift_p (matmul HV (transpose vH)) ;;
  rv <~ lift_p (item HVHt) ;;
  _ <~ setrow_p r t rv ;;
  (* K = V_predict @ H.T / r[t] *)
  vH <~ array_at H ;;
  VHt <~ lift_p (matmul V_predict (transpose vH)) ;;
  vr <~ array_at r ;;
  rt <~ lift_p (getitem vr t) ;;
  K <~ lift_p (elementwise div VHt [rt]) ;;
  (* x = x_predict + K * e[t] *)
  ve <~ array_at e ;;
  et <~ lift_p (getitem ve t) ;;
  Ke <~ lift_p (elementwise mul K [et]) ;;
  x <~ lift_p (elementwise add x_predict Ke) ;;
  (* V = (np.eye(k) - K @ H) @ V_predict *)
  vH <~ array_at H ;;
  KH <~ lift_p (matmul K vH) ;;
  IKH <~ lift_p (elementwise sub (eye k) KH) ;;
  V <~ lift_p (matmul IKH V_predict) ;;
  ret_p (x, V).

(** [obj_func_likelihood(theta)], for [theta] the one-dimensional array at
    the address given. *)
Definition obj_func_likelihood_p (theta : nat) : proc T :=
  let p := 3 in
  let q := 2 in
  let a := mk_view theta 0 p in
  let b := mk_view theta p (p + q) in
  let k := Nat.max p (q + 1) in
  FGHQ <~ initialize_FGHQ_p a b ;;
  let F := fst (fst (fst FGHQ)) in
  let G := snd (fst (fst FGHQ)) in
  let H := snd (fst FGHQ) in
  let x := zeros k 1 in
  let V := scale (eye k) (of_Z 100) in
  N <~ global_N ;;
  e <~ new_array (zeros N 1) ;;
  N <~ global_N ;;
  r <~ new_array (zeros N 1) ;;
  N <~ global_N ;;
  _ <~ for_each_p (kalman_body_p k F G H e r) (seq 0 N) (x, V) ;;
  ve <~ array_at e ;;
  vr <~ array_at r ;;
  N <~ global_N ;;
  sigma_hat <~ lift_p (sigma_hat_of N ve vr) ;;
  vr <~ array_at r ;;
  log_lik <~ lift_p (log_likelihood sigma_hat vr) ;;
  ret_p (neg log_lik).

(** What a one-dimensional array holds in a state. *)
Definition contents (s : store) (p : nat) : list T := nth p (vectors s) [].

(** [s'] is [s] with two-dimensional arrays added: the globals and every
    array of [s] are as they were. *)
Definition extends (s s' : store) : Prop :=
  glob_N s' = glob_N s /\ glob_y s' = glob_y s /\
  vectors s' = vectors s /\
  exists added, arrays s' = arrays s ++ added.

(** The outcome of a computation without its value. *)
Definition outcome {A B : Type} (v : B) (c : result A) : result B :=
  match c with
  | Ok _ => Ok v
  | Raise e => Raise e
  end.

End Procedure.

Arguments store : clear implicits.
Arguments proc : clear implicits.

(** * Proofs *)

(** ** The error monad *)

Lemma for_each_app {S : Type} (body : S -> nat -> result S) (u v : list nat) :
  forall s, for_each body (u ++ v) s = (s' <- for_each body u s ;; for_each body v s').
Proof.
  induction u as [|t u IH]; intros s; simpl.
  - reflexivity.
  - destruct (body s t) as [s1|err]; simpl; [apply IH | reflexivity].
Qed.

Lemma for_each_ext {S : Type} (f g : S -> nat -> result S) (ts : list nat) :
  (forall s t, In t ts -> f s t = g s t) ->
  forall s, for_each f ts s = for_each g ts s.
Proof.
  induction ts as [|t ts IH]; intros Hfg s; simpl.
  - reflexivity.
  - rewrite Hfg by (left; reflexivity).
    destruct (g s t) as [s1|err]; simpl; [|reflexivity].
    apply IH. intros s' t' Hin. apply Hfg. right. exact Hin.
Qed.

(** ** Lists updated by index *)

Lemma length_update {A : Type} (l : list A) :
  forall i v, length (update l i v) = length l.
Proof.
  induction l as [|a l IH]; intros [|i] v; simpl; auto.
Qed.

Lemma nth_update {A : Type} (l : list A) :
  forall i j v d,
    nth j (update l i v) d =
    if (i =? j) && (i <? length l) then v else nth j l d.
Proof.
  induction l as [|a l IH]; intros i j v d.
  - simpl. destruct i; simpl; rewrite andb_false_r; reflexivity.
  - destruct i as [|i], j as [|j]; simpl; try reflexivity.
    rewrite IH. reflexivity.
Qed.

Lemma Forall_update {A : Type} (P : A -> Prop) (l : list A) :
  forall i v, Forall P l -> P v -> Forall P (update l i v).
Proof.
  induction l as [|a l IH]; intros [|i] v Hl Hv; simpl; auto;
    inversion Hl; subst; constructor; auto.
Qed.

Lemma nth_error_nth_default {A : Type} (l : list A) (i : nat) (d : A) :
  i < length l -> nth_error l i = Some (nth i l d).
Proof.
  revert i. induction l as [|a l IH]; intros [|i] Hi; simpl in *; try lia.
  - reflexivity.
  - apply IH. lia.
Qed.

Lemma getitem_Ok {A : Type} (l : list A) (i : nat) (d : A) :
  i < length l -> getitem l i = Ok (nth i l d).
Proof.
  intros Hi. unfold getitem. rewrite (nth_error_nth_default l d Hi). reflexivity.
Qed.

Lemma map2_length {A B C : Type} (f : A -> B -> C) (u : list A) :
  forall v, length u = length v -> length (map2 f u v) = length u.
Proof.
  induction u as [|a u IH]; intros [|b v] H; simpl in *; try lia.
  rewrite IH; lia.
Qed.

Lemma nth_map2 {A B C : Type} (f : A -> B -> C) (u : list A) :
  forall v i da db dc,
    i < length u -> length u = length v ->
    nth i (map2 f u v) dc = f (nth i u da) (nth i v db).
Proof.
  induction u as [|a u IH]; intros [|b v] [|i] da db dc Hi H;
    simpl in *; try lia.
  - reflexivity.
  - apply IH; lia.
Qed.

Lemma stretch_length {A : Type} (l : list A) : stretch (length l) l = l.
Proof.
  destruct l as [|a [|b l]]; reflexivity.
Qed.

Lemma nth_ext_len {A : Type} (d : A) (u : list A) :
  forall v, length u = length v ->
       (forall i, i < length u -> nth i u d = nth i v d) -> u = v.
Proof.
  induction u as [|a u IH]; intros [|b v] Hlen Hnth; simpl in *; try lia.
  - reflexivity.
  - f_equal.
    + apply (Hnth 0). lia.
    + apply IH; [lia|]. intros i Hi. apply (Hnth (S i)). lia.
Qed.

(** ** Shapes and entries of arrays *)

Section ArrayFacts.
Context {T : Type} {ar : Arith T}.

Lemma wf_length (n m : nat) (A : matrix T) : wf n m A -> length A = n.
Proof. intros [H _]. exact H. Qed.

Lemma wf_row (n m : nat) (A : matrix T) (i : nat) :
  wf n m A -> i < n -> length (nth i A []) = m.
Proof.
  intros [Hn Hrows] Hi.
  rewrite Forall_forall in Hrows. apply Hrows. apply nth_In. lia.
Qed.

Lemma ncols_wf (n m : nat) (A : matrix T) : wf n m A -> 1 <= n -> ncols A = m.
Proof.
  intros HA Hn. unfold ncols.
  destruct A as [|row A]; [destruct HA; simpl in *; lia|].
  apply (wf_row (i := 0) HA). lia.
Qed.

Lemma wf_ext (n m : nat) (A B : matrix T) :
  wf n m A -> wf n m B ->
  (forall i j, i < n -> j < m -> ent A i j = ent B i j) -> A = B.
Proof.
  intros HA HB Hent.
  apply (nth_ext_len []); [destruct HA, HB; congruence|].
  intros i Hi. rewrite (wf_length HA) in Hi.
  apply (nth_ext_len zero).
  - rewrite (wf_row HA Hi), (wf_row HB Hi). reflexivity.
  - intros j Hj. rewrite (wf_row HA Hi) in Hj. apply Hent; assumption.
Qed.

Lemma wf_zeros (n m : nat) : wf n m (zeros n m).
Proof.
  unfold zeros. split; [apply repeat_length|].
  apply Forall_forall. intros row Hrow.
  apply repeat_spec in Hrow. subst. apply repeat_length.
Qed.

Lemma nth_repeat_default {A : Type} (a : A) (n i : nat) :
  nth i (repeat a n) a = a.
Proof.
  revert i. induction n as [|n IH]; intros [|i]; simpl; auto.
Qed.

Lemma ent_zeros (n m i j : nat) : ent (zeros n m) i j = zero.
Proof.
  unfold ent, zeros.
  destruct (Nat.lt_ge_cases i n) as [Hi|Hi].
  - rewrite (nth_indep _ [] (repeat zero m)) by (rewrite repeat_length; lia).
    rewrite nth_repeat_default. apply nth_repeat_default.
  - rewrite (nth_overflow (repeat (repeat zero m) n) [])
      by (rewrite repeat_length; lia).
    destruct j; reflexivity.
Qed.

Lemma wf_eye (k : nat) : wf k k (eye k).
Proof.
  unfold eye. split.
  - rewrite length_map, length_seq. reflexivity.
  - apply Forall_forall. intros row Hrow.
    apply in_map_iff in Hrow. destruct Hrow as [i [<- _]].
    rewrite length_map, length_seq. reflexivity.
Qed.

Lemma nth_map_seq {A : Type} (f : nat -> A) (n i : nat) (d : A) :
  i < n -> nth i (map f (seq 0 n)) d = f i.
Proof.
  intros Hi.
  rewrite (nth_indep _ d (f 0)) by (rewrite length_map, length_seq; lia).
  rewrite (map_nth f (seq 0 n) 0 i), seq_nth by lia. reflexivity.
Qed.

Lemma ent_eye (k i j : nat) :
  i < k -> j < k -> ent (eye k) i j = if i =? j then one else zero.
Proof.
  intros Hi Hj. unfold ent, eye.
  rewrite (nth_map_seq _ _ Hi). rewrite nth_map_seq by exact Hj. reflexivity.
Qed.

(** *** Assignments [A[i, j] = v] *)

Lemma setitem_spec (n m : nat) (A : matrix T) (i j : nat) (v : T) :
  wf n m A -> i < n -> j < m ->
  exists A', setitem A i j v = Ok A' /\ wf n m A' /\
        forall i' j', ent A' i' j' =
                 if (i' =? i) && (j' =? j) then v else ent A i' j'.
Proof.
  intros HA Hi Hj.
  pose proof (wf_row HA Hi) as Hrow.
  unfold setitem.
  rewrite (nth_error_nth_default A [] (i := i)) by (rewrite (wf_length HA); lia).
  replace (j <? length (nth i A [])) with true
    by (symmetry; apply Nat.ltb_lt; lia).
  eexists. split; [reflexivity|]. split.
  - destruct HA as [Hn Hrows]. split.
    + rewrite length_update. exact Hn.
    + apply Forall_update; [exact Hrows|]. rewrite length_update. exact Hrow.
  - intros i' j'. unfold ent. rewrite nth_update.
    rewrite (wf_length HA).
    replace (i <? n) with true by (symmetry; apply Nat.ltb_lt; lia).
    rewrite andb_true_r, (Nat.eqb_sym i' i).
    destruct (i =? i') eqn:Ei; simpl; [|reflexivity].
    apply Nat.eqb_eq in Ei. subst i'.
    rewrite nth_update, Hrow.
    replace (j <? m) with true by (symmetry; apply Nat.ltb_lt; lia).
    rewrite andb_true_r, (Nat.eqb_sym j' j). reflexivity.
Qed.

(** A loop [for i in range(s, s + n): A[i + d, c(i)] = v(i)]. *)
Lemma setitem_loop (R C d : nat) (c : nat -> nat) (v : nat -> T)
      (body : matrix T -> nat -> result (matrix T)) (lo hi : nat) :
  (forall A i, lo <= i < hi -> body A i = setitem A (i + d) (c i) (v i)) ->
  (forall i, lo <= i < hi -> i + d < R /\ c i < C) ->
  forall n s A,
    lo <= s -> s + n <= hi -> wf R C A ->
    exists A', for_each body (seq s n) A = Ok A' /\ wf R C A' /\
          forall i' j', ent A' i' j' =
                   if (s + d <=? i') && (i' <? s + n + d) && (j' =? c (i' - d))
                   then v (i' - d) else ent A i' j'.
Proof.
  intros Hbody Hbound.
  induction n as [|n IH]; intros s A Hlo Hhi HA.
  - exists A. split; [reflexivity|]. split; [exact HA|].
    intros i' j'.
    replace ((s + d <=? i') && (i' <? s + 0 + d)) with false; [reflexivity|].
    symmetry. apply andb_false_iff.
    destruct (Nat.leb_spec (s + d) i'); [right|left; reflexivity].
    apply Nat.ltb_ge. lia.
  - simpl. rewrite Hbody by lia.
    destruct (Hbound s) as [Hr Hc]; [lia|].
    destruct (setitem_spec (v s) HA Hr Hc) as [A1 [E1 [W1 Ent1]]].
    rewrite E1. simpl.
    destruct (IH (S s) A1) as [A2 [E2 [W2 Ent2]]]; [lia|lia|exact W1|].
    exists A2. split; [exact E2|]. split; [exact W2|].
    intros i' j'. rewrite Ent2, Ent1.
    destruct (Nat.eqb_spec i' (s + d)) as [Heq|Hne].
    + rewrite (proj2 (Nat.leb_gt (S s + d) i')) by lia.
      rewrite (proj2 (Nat.leb_le (s + d) i')) by lia.
      rewrite (proj2 (Nat.ltb_lt i' (s + S n + d))) by lia.
      cbn [andb]. replace (i' - d) with s by lia. reflexivity.
    + cbn [andb].
      replace (S s + n + d) with (s + S n + d) by lia.
      replace (S s + d <=? i') with (s + d <=? i'); [reflexivity|].
      destruct (Nat.leb_spec (s + d) i'), (Nat.leb_spec (S s + d) i');
        try reflexivity; lia.
Qed.

End ArrayFacts.

(** ** The state-space builder *)

Section Builder.
Context {T : Type} {ar : Arith T}.

(** What [initialize_FGHQ] returns, entry by entry. *)
Lemma initialize_FGHQ_entries (a b : list T) :
  let p := length a in
  let q := length b in
  let k := Nat.max p (q + 1) in
  exists F G H : matrix T,
    initialize_FGHQ a b = Ok (F, G, H, eye k) /\
    wf k k F /\ wf k 1 G /\ wf 1 k H /\
    (forall i j, ent F i j =
            if (i <? k - 1) && (j =? i + 1) then one
            else if (i <? p) && (j =? 0) then nth i a zero else zero) /\
    (forall i j, ent G i j =
            if (i =? 0) && (j =? 0) then one
            else if (1 <=? i) && (i <? q + 1) && (j =? 0)
                 then neg (nth (i - 1) b zero) else zero) /\
    (forall i j, ent H i j = if (i =? 0) && (j =? 0) then one else zero).
Proof.
  intros p q k.
  assert (Hk : 1 <= k) by (unfold k; lia).
  unfold initialize_FGHQ. fold p q k.
  (* the first column of F *)
  destruct (@setitem_loop T ar k k 0 (fun _ => 0) (fun i => nth i a zero)
              (fun F i => ai <- getitem a i ;; setitem F i 0 ai) 0 p)
    with (n := p) (s := 0) (A := zeros k k) as [F1 [E1 [W1 Ent1]]].
  { intros A i Hi. rewrite (getitem_Ok a zero) by (fold p; lia).
    simpl. rewrite Nat.add_0_r. reflexivity. }
  { intros i Hi. unfold k. lia. }
  { lia. } { lia. } { apply wf_zeros. }
  rewrite E1. cbn [bind].
  (* the ones next to the diagonal *)
  destruct (@setitem_loop T ar k k 0 (fun i => i + 1) (fun _ => one)
              (fun F i => setitem F i (i + 1) one) 0 (k - 1))
    with (n := k - 1) (s := 0) (A := F1) as [F2 [E2 [W2 Ent2]]].
  { intros A i Hi. rewrite Nat.add_0_r. reflexivity. }
  { intros i Hi. lia. }
  { lia. } { lia. } { exact W1. }
  rewrite E2. cbn [bind].
  (* the moving-average coefficients in G *)
  destruct (@setitem_loop T ar k 1 1 (fun _ => 0) (fun i => neg (nth i b zero))
              (fun G i => bi <- getitem b i ;; setitem G (i + 1) 0 (neg bi)) 0 q)
    with (n := q) (s := 0) (A := zeros k 1) as [G1 [E3 [W3 Ent3]]].
  { intros A i Hi. rewrite (getitem_Ok b zero) by (fold q; lia). reflexivity. }
  { intros i Hi. unfold k. lia. }
  { lia. } { lia. } { apply wf_zeros. }
  rewrite E3. cbn [bind].
  destruct (@setitem_spec T ar k 1 G1 0 0 one W3) as [G2 [E4 [W4 Ent4]]];
    [lia|lia|].
  rewrite E4. cbn [bind].
  destruct (@setitem_spec T ar 1 k (zeros 1 k) 0 0 one (wf_zeros 1 k))
    as [H1 [E5 [W5 Ent5]]]; [lia|lia|].
  rewrite E5. cbn [bind].
  exists F2, G2, H1. split; [reflexivity|].
  split; [exact W2|]. split; [exact W4|]. split; [exact W5|].
  split; [|split].
  - intros i j. rewrite Ent2, Ent1, ent_zeros.
    rewrite !Nat.add_0_r, !Nat.sub_0_r. cbn [Nat.add Nat.leb andb].
    reflexivity.
  - intros i j. rewrite Ent4, Ent3, ent_zeros.
    cbn [Nat.add]. rewrite (Nat.add_comm q 1). reflexivity.
  - intros i j. rewrite Ent5, ent_zeros. reflexivity.
Qed.

End Builder.

(** ** Shapes through the array operations *)

Section ShapeFacts.
Context {T : Type} {ar : Arith T}.

Lemma wf_transpose (n m : nat) (A : matrix T) :
  wf n m A -> 1 <= n -> wf m n (transpose A).
Proof.
  intros HA Hn. unfold transpose. rewrite (ncols_wf HA Hn). split.
  - rewrite length_map, length_seq. reflexivity.
  - apply Forall_forall. intros row Hrow.
    apply in_map_iff in Hrow. destruct Hrow as [j [<- _]].
    rewrite length_map. apply (wf_length HA).
Qed.

Lemma ent_transpose (n m : nat) (A : matrix T) (i j : nat) :
  wf n m A -> 1 <= n -> j < m -> ent (transpose A) j i = ent A i j.
Proof.
  intros HA Hn Hj. unfold ent at 1. unfold transpose.
  rewrite (ncols_wf HA Hn), (nth_map_seq _ _ Hj).
  replace zero with ((fun row : list T => nth j row zero) []) at 1
    by (destruct j; reflexivity).
  exact (map_nth (fun row : list T => nth j row zero) A [] i).
Qed.

Lemma wf_mmul (n m p : nat) (A B : matrix T) :
  wf n m A -> wf m p B -> 1 <= m -> wf n p (mmul A B).
Proof.
  intros HA HB Hm. unfold mmul. split.
  - rewrite length_map. apply (wf_length HA).
  - apply Forall_forall. intros row Hrow.
    apply in_map_iff in Hrow. destruct Hrow as [u [<- _]].
    rewrite length_map. apply (wf_length (wf_transpose HB Hm)).
Qed.

Lemma matmul_Ok (n m p : nat) (A B : matrix T) :
  wf n m A -> wf m p B -> 1 <= n -> matmul A B = Ok (mmul A B).
Proof.
  intros HA HB Hn. unfold matmul, nrows.
  rewrite (ncols_wf HA Hn), (wf_length HB), Nat.eqb_refl. reflexivity.
Qed.

Lemma wf_ew (op : T -> T -> T) (n m : nat) (A B : matrix T) :
  wf n m A -> wf n m B -> wf n m (ew op A B).
Proof.
  intros HA HB. unfold ew. split.
  - rewrite map2_length; [apply (wf_length HA)|].
    rewrite (wf_length HA), (wf_length HB). reflexivity.
  - apply Forall_forall. intros row Hrow.
    destruct (In_nth _ _ [] Hrow) as [i [Hi Hnth]].
    rewrite map2_length in Hi
      by (rewrite (wf_length HA), (wf_length HB); reflexivity).
    rewrite (wf_length HA) in Hi.
    rewrite (nth_map2 _ _ _ [] [] []) in Hnth
      by (rewrite (wf_length HA), ?(wf_length HB); auto).
    subst row. rewrite map2_length; rewrite (wf_row HA Hi); [reflexivity|].
    rewrite (wf_row HB Hi). reflexivity.
Qed.

Lemma wf_map_map (f : T -> T) (n m : nat) (A : matrix T) :
  wf n m A -> wf n m (map (map f) A).
Proof.
  intros [Hn Hrows]. split.
  - rewrite length_map. exact Hn.
  - apply Forall_forall. intros row Hrow.
    apply in_map_iff in Hrow. destruct Hrow as [u [<- Hu]].
    rewrite length_map. rewrite Forall_forall in Hrows. apply Hrows, Hu.
Qed.

Lemma map_stretch_rows (n m : nat) (A : matrix T) :
  wf n m A -> map (stretch m) A = A.
Proof.
  intros [_ Hrows]. induction Hrows as [|row A Hrow _ IH]; simpl.
  - reflexivity.
  - rewrite IH. rewrite <- Hrow at 1. rewrite stretch_length. reflexivity.
Qed.

(** An elementwise operation on two arrays of one shape does not broadcast. *)
Lemma elementwise_Ok (op : T -> T -> T) (n m : nat) (A B : matrix T) :
  wf n m A -> wf n m B -> 1 <= n -> elementwise op A B = Ok (ew op A B).
Proof.
  intros HA HB Hn. unfold elementwise, nrows, bcast_dim.
  rewrite (ncols_wf HA Hn), (ncols_wf HB Hn), (wf_length HA), (wf_length HB).
  rewrite !Nat.eqb_refl.
  rewrite (map_stretch_rows HA), (map_stretch_rows HB).
  rewrite <- (wf_length HA) at 1. rewrite stretch_length.
  rewrite <- (wf_length HB) at 1. rewrite stretch_length.
  reflexivity.
Qed.

(** A column divided (multiplied, ...) by an array holding one number. *)
Lemma elementwise_scalar (op : T -> T -> T) (n : nat) (A : matrix T) (c : T) :
  wf n 1 A -> 1 <= n ->
  elementwise op A [[c]] = Ok (map (map (fun v => op v c)) A).
Proof.
  intros HA Hn. unfold elementwise, nrows, bcast_dim.
  rewrite (ncols_wf HA Hn), (wf_length HA). cbn [ncols hd length].
  rewrite Nat.eqb_refl.
  rewrite (map_stretch_rows HA). cbn [map stretch repeat Nat.eqb].
  replace (if n =? 1 then Some n else if n =? 1 then Some 1 else Some n)
    with (Some n) by (destruct (n =? 1); reflexivity).
  rewrite <- (wf_length HA) at 1. rewrite stretch_length.
  rewrite <- (wf_length HA). clear Hn. f_equal.
  destruct HA as [_ Hrows].
  induction Hrows as [|row A Hrow _ IH]; [reflexivity|].
  simpl. rewrite IH. f_equal.
  destruct row as [|v [|w row]]; simpl in Hrow; try discriminate.
  reflexivity.
Qed.

Lemma item_Ok (A : matrix T) : wf 1 1 A -> item A = Ok (ent A 0 0).
Proof.
  intros [Hn Hrows].
  destruct A as [|row [|row' A]]; simpl in Hn; try discriminate.
  inversion Hrows as [|? ? Hrow _]; subst.
  destruct row as [|v [|w row]]; simpl in Hrow; try discriminate.
  reflexivity.
Qed.

Lemma wf_scale (n m : nat) (A : matrix T) (c : T) :
  wf n m A -> wf n m (scale A c).
Proof. apply wf_map_map. Qed.

(** *** The arrays [e] and [r] while the loop fills them *)

Lemma filled_0 (N : nat) (f : nat -> T) : filled N f 0 = zeros N 1.
Proof. unfold filled. simpl. rewrite Nat.sub_0_r. reflexivity. Qed.

Lemma filled_all (N : nat) (f : nat -> T) :
  filled N f N = map (fun i => [f i]) (seq 0 N).
Proof. unfold filled. rewrite Nat.sub_diag. simpl. apply app_nil_r. Qed.

Lemma update_app_here {A : Type} (u : list A) (a x : A) (v : list A) :
  update (u ++ a :: v) (length u) x = u ++ x :: v.
Proof. induction u as [|b u IH]; simpl; [reflexivity | now rewrite IH]. Qed.

Lemma setrow_filled (N : nat) (f : nat -> T) (t : nat) (v : T) :
  t < N -> f t = v -> setrow (filled N f t) t v = Ok (filled N f (S t)).
Proof.
  intros Ht Hv. unfold setrow, filled.
  assert (Hlen : length (map (fun i => [f i]) (seq 0 t)) = t)
    by (rewrite length_map, length_seq; reflexivity).
  replace (N - t) with (S (N - S t)) by lia.
  unfold zeros. cbn [repeat].
  rewrite nth_error_app2 by lia. rewrite Hlen, Nat.sub_diag. cbn [nth_error].
  pose proof (update_app_here (map (fun i => [f i]) (seq 0 t)) [zero]
                (map (fun _ : T => v) [zero]) (repeat [zero] (N - S t))) as HU.
  rewrite Hlen in HU. rewrite HU.
  rewrite seq_S, map_app, <- app_assoc. simpl. rewrite Hv. reflexivity.
Qed.

Lemma getitem_filled (N : nat) (f : nat -> T) (t i : nat) :
  i < t -> getitem (filled N f t) i = Ok [f i].
Proof.
  intros Hi. unfold filled.
  rewrite (getitem_Ok _ []) by (rewrite length_app, length_map, length_seq; lia).
  rewrite app_nth1 by (rewrite length_map, length_seq; lia).
  rewrite nth_map_seq by exact Hi. reflexivity.
Qed.

End ShapeFacts.

(** ** The loop of the Kalman recursion, pass by pass *)

Section KalmanFacts.
Context {T : Type} {ar : Arith T}.
Variables (k : nat) (F G H : matrix T) (y : list T).
Hypothesis Hk : 1 <= k.
Hypothesis HF : wf k k F.
Hypothesis HG : wf k 1 G.
Hypothesis HH : wf 1 k H.

Lemma wf_spec_x_pred (x : matrix T) : wf k 1 x -> wf k 1 (spec_x_pred F x).
Proof. intros Hx. exact (wf_mmul HF Hx Hk). Qed.

Lemma wf_spec_V_pred (V : matrix T) : wf k k V -> wf k k (spec_V_pred F G V).
Proof.
  intros HV. unfold spec_V_pred. apply wf_ew.
  - apply (wf_mmul (m := k)); [|apply wf_transpose|]; auto.
    apply (wf_mmul HF HV Hk).
  - apply (wf_mmul (m := 1)); [exact HG|apply wf_transpose; auto|lia].
Qed.

Lemma wf_spec_K (Vp : matrix T) (r : T) : wf k k Vp -> wf k 1 (spec_K H Vp r).
Proof.
  intros HV. unfold spec_K. apply wf_map_map.
  apply (wf_mmul (m := k)); [exact HV|apply wf_transpose; auto|exact Hk].
Qed.

Lemma wf_spec_update (yt : T) (x V : matrix T) :
  wf k 1 x -> wf k k V ->
  wf k 1 (fst (spec_update k F G H yt (x, V))) /\
  wf k k (snd (spec_update k F G H yt (x, V))).
Proof.
  intros Hx HV. unfold spec_update. cbn [fst snd].
  pose proof (wf_spec_x_pred Hx) as Wxp.
  pose proof (wf_spec_V_pred HV) as WVp.
  split.
  - apply wf_ew; [exact Wxp|]. apply wf_scale. apply wf_spec_K. exact WVp.
  - apply (wf_mmul (m := k)); [|exact WVp|exact Hk].
    apply wf_ew; [apply wf_eye|].
    apply (wf_mmul (m := 1)); [apply wf_spec_K; exact WVp|exact HH|lia].
Qed.

(** One pass of the loop performs one step of the recurrence and assigns
    row [t] of [e] and of [r]. *)
Lemma kalman_body_step (N t : nat) (x V : matrix T) (fe fr : nat -> T) :
  wf k 1 x -> wf k k V -> t < N -> t < length y ->
  fe t = spec_e H (nth t y zero) (spec_x_pred F x) ->
  fr t = spec_r H (spec_V_pred F G V) ->
  kalman_body k F G H y (mk_fstate x V (filled N fe t) (filled N fr t)) t =
  Ok (mk_fstate (fst (spec_update k F G H (nth t y zero) (x, V)))
                (snd (spec_update k F G H (nth t y zero) (x, V)))
                (filled N fe (S t)) (filled N fr (S t))).
Proof.
  intros Hx HV Ht Hy Hfe Hfr.
  pose proof (wf_spec_x_pred Hx) as Wxp.
  pose proof (wf_spec_V_pred HV) as WVp.
  pose proof (wf_transpose HF Hk) as WFt.
  pose proof (wf_transpose HG Hk) as WGt.
  pose proof (wf_transpose HH (le_n 1)) as WHt.
  pose proof (wf_mmul HF HV Hk) as WFV.
  assert (W1 : 1 <= 1) by lia.
  unfold kalman_body, kalman_predict. cbn [st_x st_V st_e st_r].
  rewrite (matmul_Ok HF Hx Hk). cbn [bind].
  rewrite (matmul_Ok HF HV Hk). cbn [bind].
  rewrite (matmul_Ok WFV WFt Hk). cbn [bind].
  rewrite (matmul_Ok HG WGt Hk). cbn [bind].
  rewrite (elementwise_Ok add (wf_mmul WFV WFt Hk) (wf_mmul HG WGt W1) Hk).
  cbn [bind].
  fold (spec_V_pred F G V). fold (spec_x_pred F x).
  rewrite (getitem_Ok y zero Hy). cbn [bind].
  rewrite (matmul_Ok HH Wxp W1). cbn [bind].
  rewrite (item_Ok (wf_mmul HH Wxp Hk)). cbn [bind].
  rewrite (setrow_filled fe Ht Hfe). cbn [bind].
  rewrite (matmul_Ok HH WVp W1). cbn [bind].
  rewrite (matmul_Ok (wf_mmul HH WVp Hk) WHt W1). cbn [bind].
  rewrite (item_Ok (wf_mmul (wf_mmul HH WVp Hk) WHt Hk)). cbn [bind].
  rewrite (setrow_filled fr Ht Hfr). cbn [bind].
  rewrite (matmul_Ok WVp WHt Hk). cbn [bind].
  rewrite (getitem_filled N fr (Nat.lt_succ_diag_r t)). cbn [bind].
  rewrite (elementwise_scalar div (fr t) (wf_mmul WVp WHt Hk) Hk). cbn [bind].
  rewrite (getitem_filled N fe (Nat.lt_succ_diag_r t)). cbn [bind].
  rewrite Hfr. fold (spec_K H (spec_V_pred F G V) (spec_r H (spec_V_pred F G V))).
  pose proof (wf_spec_K (spec_r H (spec_V_pred F G V)) WVp) as WK.
  rewrite (elementwise_scalar mul (fe t) WK Hk). cbn [bind].
  fold (scale (spec_K H (spec_V_pred F G V) (spec_r H (spec_V_pred F G V)))
              (fe t)).
  rewrite (elementwise_Ok add Wxp (wf_scale (fe t) WK) Hk). cbn [bind].
  rewrite (matmul_Ok WK HH Hk). cbn [bind].
  rewrite (elementwise_Ok sub (wf_eye k) (wf_mmul WK HH W1) Hk). cbn [bind].
  rewrite (matmul_Ok (wf_ew sub (wf_eye k) (wf_mmul WK HH W1)) WVp Hk).
  cbn [bind]. rewrite Hfe. reflexivity.
Qed.

(** The recurrence keeps the shapes of [x] and [V]. *)
Lemma wf_spec_state (t : nat) :
  wf k 1 (fst (spec_state k F G H y t)) /\
  wf k k (snd (spec_state k F G H y t)).
Proof.
  induction t as [|t [IHx IHV]]; cbn [spec_state].
  - split; [apply wf_zeros | apply wf_scale, wf_eye].
  - destruct (spec_state k F G H y t) as [x V].
    apply wf_spec_update; assumption.
Qed.

(** After [t] passes the loop holds the [t]-th state of the recurrence and
    the first [t] innovations and variances. *)
Lemma kalman_run_spec (N t : nat) :
  t <= N -> t <= length y ->
  kalman_run k N F G H y t =
  Ok (mk_fstate (fst (spec_state k F G H y t)) (snd (spec_state k F G H y t))
                (filled N (spec_e_at k F G H y) t)
                (filled N (spec_r_at k F G H y) t)).
Proof.
  unfold kalman_run. induction t as [|t IH]; intros HtN Hty.
  - cbn [seq for_each spec_state fst snd]. rewrite !filled_0. reflexivity.
  - rewrite seq_S, for_each_app, IH by lia. cbn [bind Nat.add for_each].
    destruct (wf_spec_state t) as [Wx WV].
    rewrite (kalman_body_step (N := N) (t := t)
               (spec_e_at k F G H y) (spec_r_at k F G H y) Wx WV);
      try lia; reflexivity.
Qed.

End KalmanFacts.

(** ** Finite sums of real numbers *)

Section Sums.
Local Open Scope R_scope.

Lemma Rsum_ext (f g : nat -> R) (n : nat) :
  (forall i, (i < n)%nat -> f i = g i) -> Rsum f n = Rsum g n.
Proof.
  induction n as [|n IH]; intros Hfg; simpl.
  - reflexivity.
  - rewrite IH by (intros i Hi; apply Hfg; lia).
    rewrite (Hfg n) by lia. reflexivity.
Qed.

Lemma Rsum_plus (f g : nat -> R) (n : nat) :
  Rsum (fun i => f i + g i) n = Rsum f n + Rsum g n.
Proof. induction n as [|n IH]; simpl; [|rewrite IH]; ring. Qed.

Lemma Rsum_minus (f g : nat -> R) (n : nat) :
  Rsum (fun i => f i - g i) n = Rsum f n - Rsum g n.
Proof. induction n as [|n IH]; simpl; [|rewrite IH]; ring. Qed.

Lemma Rsum_mult_l (c : R) (f : nat -> R) (n : nat) :
  Rsum (fun i => c * f i) n = c * Rsum f n.
Proof. induction n as [|n IH]; simpl; [|rewrite IH]; ring. Qed.

Lemma Rsum_mult_r (c : R) (f : nat -> R) (n : nat) :
  Rsum (fun i => f i * c) n = Rsum f n * c.
Proof. induction n as [|n IH]; simpl; [|rewrite IH]; ring. Qed.

Lemma Rsum_zero (n : nat) : Rsum (fun _ => 0) n = 0.
Proof. induction n as [|n IH]; simpl; [|rewrite IH]; ring. Qed.

Lemma Rsum_nonneg (f : nat -> R) (n : nat) :
  (forall i, (i < n)%nat -> 0 <= f i) -> 0 <= Rsum f n.
Proof.
  induction n as [|n IH]; intros Hf; simpl.
  - lra.
  - assert (0 <= Rsum f n) by (apply IH; intros i Hi; apply Hf; lia).
    assert (0 <= f n) by (apply Hf; lia). lra.
Qed.

(** The sum read from its first term. *)
Lemma Rsum_shift (f : nat -> R) (n : nat) :
  Rsum f (S n) = f O + Rsum (fun i => f (S i)) n.
Proof.
  induction n as [|n IH].
  - simpl. ring.
  - change (Rsum f (S (S n))) with (Rsum f (S n) + f (S n)).
    rewrite IH. simpl. ring.
Qed.

(** Two nested sums commute. *)
Lemma Rsum_swap (f : nat -> nat -> R) (n m : nat) :
  Rsum (fun i => Rsum (fun j => f i j) m) n =
  Rsum (fun j => Rsum (fun i => f i j) n) m.
Proof.
  induction n as [|n IH]; simpl.
  - rewrite Rsum_zero. reflexivity.
  - rewrite IH, <- Rsum_plus. reflexivity.
Qed.

(** A sum with one term that is not zero. *)
Lemma Rsum_single (g : nat -> R) (i n : nat) :
  (i < n)%nat -> Rsum (fun j => if i =? j then g j else 0) n = g i.
Proof.
  induction n as [|n IH]; intros Hi; [lia|]. simpl.
  destruct (Nat.eqb_spec i n) as [->|Hne].
  - rewrite (Rsum_ext (fun j => if n =? j then g j else 0) (fun _ => 0)).
    + rewrite Rsum_zero. ring.
    + intros j Hj. destruct (Nat.eqb_spec n j); [lia|reflexivity].
  - rewrite IH by lia. ring.
Qed.

End Sums.

(** ** Entries of the arrays the operations build *)

Section EntryFacts.
Context {T : Type} {ar : Arith T}.

Lemma ent_ew (op : T -> T -> T) (n m : nat) (A B : matrix T) (i j : nat) :
  wf n m A -> wf n m B -> i < n -> j < m ->
  ent (ew op A B) i j = op (ent A i j) (ent B i j).
Proof.
  intros HA HB Hi Hj. unfold ent, ew.
  rewrite (nth_map2 _ _ _ [] [] [])
    by (rewrite (wf_length HA), ?(wf_length HB); auto).
  apply nth_map2; rewrite (wf_row HA Hi), ?(wf_row HB Hi); auto.
Qed.

Lemma ent_map_map (f : T -> T) (n m : nat) (A : matrix T) (i j : nat) :
  wf n m A -> i < n -> j < m -> ent (map (map f) A) i j = f (ent A i j).
Proof.
  intros HA Hi Hj. unfold ent.
  rewrite (nth_indep _ [] (map f [])) by (rewrite length_map, (wf_length HA); lia).
  rewrite map_nth.
  rewrite (nth_indep _ zero (f zero)) by (rewrite length_map, (wf_row HA Hi); lia).
  apply map_nth.
Qed.

Lemma ent_filled (N : nat) (f : nat -> T) (t : nat) :
  t < N -> ent (filled N f N) t 0 = f t.
Proof.
  intros Ht. rewrite filled_all. unfold ent.
  rewrite (nth_map_seq _ _ Ht). reflexivity.
Qed.

Lemma wf_filled (N : nat) (f : nat -> T) : wf N 1 (filled N f N).
Proof.
  rewrite filled_all. split.
  - rewrite length_map, length_seq. reflexivity.
  - apply Forall_forall. intros row Hrow.
    apply in_map_iff in Hrow. destruct Hrow as [i [<- _]]. reflexivity.
Qed.

End EntryFacts.

Section RealArrays.
Local Open Scope R_scope.

Lemma fold_dot (u : list R) :
  forall (v : list R) (acc : R) (n : nat),
    length u = n -> length v = n ->
    fold_left (fun a uv => a + fst uv * snd uv) (combine u v) acc =
    acc + Rsum (fun l => nth l u 0 * nth l v 0) n.
Proof.
  induction u as [|a u IH]; intros [|b v] acc n Hu Hv;
    simpl in Hu, Hv; subst n; try discriminate.
  - simpl. ring.
  - rewrite Rsum_shift. cbn [combine fold_left fst snd nth].
    rewrite (IH v _ (length u)) by (auto; lia). ring.
Qed.

Lemma dot_Rsum (u v : list R) (n : nat) :
  length u = n -> length v = n ->
  dot u v = Rsum (fun l => nth l u 0 * nth l v 0) n.
Proof.
  intros Hu Hv. unfold dot.
  change (fold_left (fun a uv => a + fst uv * snd uv) (combine u v) 0 =
          Rsum (fun l => nth l u 0 * nth l v 0) n).
  rewrite (fold_dot u v 0 Hu Hv). ring.
Qed.

(** The entries of a matrix product. *)
Lemma ent_mmul (n m p : nat) (A B : Rmatrix) (i j : nat) :
  wf n m A -> wf m p B -> (1 <= m)%nat -> (i < n)%nat -> (j < p)%nat ->
  ent (mmul A B) i j = Rsum (fun l => ent A i l * ent B l j) m.
Proof.
  intros HA HB Hm Hi Hj.
  pose proof (wf_transpose HB Hm) as HBt.
  unfold ent at 1. unfold mmul.
  rewrite (nth_indep _ [] (map (fun col => dot [] col) (transpose B)))
    by (rewrite length_map, (wf_length HA); lia).
  rewrite (map_nth (fun row => map (fun col => dot row col) (transpose B)) A [] i).
  rewrite (nth_indep _ _ (dot (nth i A []) []))
    by (rewrite length_map, (wf_length HBt); lia).
  rewrite (map_nth (fun col => dot (nth i A []) col) (transpose B) [] j).
  rewrite dot_Rsum with (n := m);
    [|apply (wf_row HA Hi)|apply (wf_row HBt Hj)].
  apply Rsum_ext. intros l Hl. f_equal.
  change (ent (transpose B) j l = ent B l j).
  apply (ent_transpose (n := m) (m := p)); auto.
Qed.

(** [np.sum] of a column. *)
Lemma fold_col (A : Rmatrix) :
  forall (acc : R) (n : nat),
    wf n 1 A ->
    fold_left Rplus (concat A) acc = acc + Rsum (fun t => ent A t 0) n.
Proof.
  induction A as [|row A IH]; intros acc n [Hn Hrows]; simpl in Hn; subst n.
  - simpl. ring.
  - inversion Hrows as [|? ? Hrow HA]; subst.
    destruct row as [|v [|w row]]; simpl in Hrow; try discriminate.
    rewrite Rsum_shift. cbn [concat app fold_left].
    rewrite (IH _ (length A)) by (split; auto).
    unfold ent. cbn [nth]. ring.
Qed.

Lemma np_sum_col (n : nat) (A : Rmatrix) :
  wf n 1 A -> np_sum A = Rsum (fun t => ent A t 0) n.
Proof.
  intros HA. unfold np_sum.
  change (fold_left Rplus (concat A) 0 = Rsum (fun t => ent A t 0) n).
  rewrite (fold_col 0 HA). ring.
Qed.

End RealArrays.

(** ** Bilinear and quadratic forms *)

Section Forms.
Local Open Scope R_scope.

Lemma quad_bilf (k : nat) (V : Rmatrix) (z : nat -> R) :
  quad k V z = bilf k k (ent V) z z.
Proof. reflexivity. Qed.

Lemma bilf_ext (n m : nat) (a a' : nat -> nat -> R) (u u' w w' : nat -> R) :
  (forall i j, (i < n)%nat -> (j < m)%nat -> a i j = a' i j) ->
  (forall i, (i < n)%nat -> u i = u' i) ->
  (forall j, (j < m)%nat -> w j = w' j) ->
  bilf n m a u w = bilf n m a' u' w'.
Proof.
  intros Ha Hu Hw. unfold bilf.
  apply Rsum_ext. intros i Hi. apply Rsum_ext. intros j Hj.
  rewrite Ha, Hu, Hw by assumption. reflexivity.
Qed.

Lemma bilf_plus (n m : nat) (a b : nat -> nat -> R) (u w : nat -> R) :
  bilf n m (fun i j => a i j + b i j) u w = bilf n m a u w + bilf n m b u w.
Proof.
  unfold bilf. rewrite <- Rsum_plus. apply Rsum_ext. intros i _.
  rewrite <- Rsum_plus. apply Rsum_ext. intros j _. ring.
Qed.

Lemma bilf_lin_l (n m : nat) (a : nat -> nat -> R) (c d : R)
      (u u' w : nat -> R) :
  bilf n m a (fun i => c * u i + d * u' i) w =
  c * bilf n m a u w + d * bilf n m a u' w.
Proof.
  unfold bilf. rewrite <- !Rsum_mult_l, <- Rsum_plus.
  apply Rsum_ext. intros i _.
  rewrite <- !Rsum_mult_l, <- Rsum_plus.
  apply Rsum_ext. intros j _. ring.
Qed.

Lemma bilf_lin_r (n m : nat) (a : nat -> nat -> R) (c d : R)
      (u w w' : nat -> R) :
  bilf n m a u (fun j => c * w j + d * w' j) =
  c * bilf n m a u w + d * bilf n m a u w'.
Proof.
  unfold bilf. rewrite <- !Rsum_mult_l, <- Rsum_plus.
  apply Rsum_ext. intros i _.
  rewrite <- !Rsum_mult_l, <- Rsum_plus.
  apply Rsum_ext. intros j _. ring.
Qed.

Lemma bilf_sym (n : nat) (a : nat -> nat -> R) (u w : nat -> R) :
  (forall i j, (i < n)%nat -> (j < n)%nat -> a i j = a j i) ->
  bilf n n a u w = bilf n n a w u.
Proof.
  intros Ha. unfold bilf. rewrite Rsum_swap.
  apply Rsum_ext. intros i Hi. apply Rsum_ext. intros j Hj.
  rewrite (Ha j i) by assumption. ring.
Qed.

(** [uᵗ (a b) w = (uᵗ a) b w] *)
Lemma bilf_fprod_l (n m p : nat) (a b : nat -> nat -> R) (u w : nat -> R) :
  bilf n p (fprod m a b) u w = bilf m p b (vecmat n u a) w.
Proof.
  unfold bilf, fprod, vecmat.
  transitivity
    (Rsum (fun i => Rsum (fun l => Rsum (fun j =>
       u i * a i l * b l j * w j) p) m) n).
  - apply Rsum_ext. intros i _.
    rewrite <- Rsum_swap. apply Rsum_ext. intros j _.
    rewrite <- Rsum_mult_l, <- Rsum_mult_r.
    apply Rsum_ext. intros l _. ring.
  - rewrite Rsum_swap. apply Rsum_ext. intros l _.
    rewrite Rsum_swap. apply Rsum_ext. intros j _.
    rewrite <- !Rsum_mult_r. apply Rsum_ext. intros i _. ring.
Qed.

(** [uᵗ (a b) w = uᵗ a (b w)] *)
Lemma bilf_fprod_r (n m p : nat) (a b : nat -> nat -> R) (u w : nat -> R) :
  bilf n p (fprod m a b) u w = bilf n m a u (matvec p b w).
Proof.
  unfold bilf, fprod, matvec.
  apply Rsum_ext. intros i _.
  transitivity
    (Rsum (fun j => Rsum (fun l => u i * a i l * b l j * w j) m) p).
  - apply Rsum_ext. intros j _.
    rewrite <- Rsum_mult_l, <- Rsum_mult_r.
    apply Rsum_ext. intros l _. ring.
  - rewrite Rsum_swap. apply Rsum_ext. intros l _.
    rewrite <- Rsum_mult_l. apply Rsum_ext. intros j _. ring.
Qed.

(** The Cauchy-Schwarz inequality of a positive semi-definite form, in the
    shape the covariance update needs. *)
Lemma bilf_cauchy_schwarz (n : nat) (a : nat -> nat -> R) (z h : nat -> R) :
  (forall i j, (i < n)%nat -> (j < n)%nat -> a i j = a j i) ->
  (forall u, 0 <= bilf n n a u u) ->
  0 < bilf n n a h h ->
  0 <= bilf n n a z z - bilf n n a z h * bilf n n a z h / bilf n n a h h.
Proof.
  intros Hsym Hpsd Hr.
  set (r := bilf n n a h h) in *.
  set (c := bilf n n a z h).
  set (q := bilf n n a z z).
  pose proof (Hpsd (fun i => r * z i + (- c) * h i)) as Hw.
  rewrite bilf_lin_l, !bilf_lin_r in Hw.
  rewrite (bilf_sym a h z Hsym) in Hw.
  fold r c q in Hw.
  assert (Hrq : 0 <= r * (r * q - c * c)) by lra.
  assert (Hq : 0 <= r * q - c * c).
  { destruct (Rle_or_lt 0 (r * q - c * c)) as [H|H]; [exact H|].
    exfalso. assert (r * (r * q - c * c) < 0); [|lra].
    rewrite <- (Rmult_0_r r). apply Rmult_lt_compat_l; assumption. }
  replace (q - c * c / r) with ((r * q - c * c) / r) by (field; lra).
  apply Rmult_le_pos; [exact Hq|].
  apply Rlt_le, Rinv_0_lt_compat, Hr.
Qed.

End Forms.

(** ** The covariance recursion over the real numbers

    In exact arithmetic the covariance of the recursion stays symmetric
    and positive semi-definite, and every innovation variance is positive.
    These are facts of the recursion over [R]; binary64 keeps them only up
    to rounding, and loses them on ill-conditioned inputs. *)

Ltac real_ops :=
  unfold zero, one;
  cbn [add sub mul div neg of_Z half R_Arith pi log R_Transc].

Section Covariance.
Local Open Scope R_scope.
Variables (k : nat) (F G H : Rmatrix).
Hypothesis Hk : (1 <= k)%nat.
Hypothesis HF : wf k k F.
Hypothesis HG : wf k 1 G.
Hypothesis HH : wf 1 k H.

(** The unit vector [i] as a function of the index. *)
Lemma bilf_unit (n m : nat) (a : nat -> nat -> R) (i j : nat) :
  (i < n)%nat -> (j < m)%nat ->
  bilf n m a (fun i' => if i =? i' then 1 else 0)
             (fun j' => if j =? j' then 1 else 0) = a i j.
Proof.
  intros Hi Hj. unfold bilf.
  rewrite (Rsum_ext _ (fun i' => if i =? i'
                              then Rsum (fun j' => if j =? j' then a i' j' else 0) m
                              else 0)).
  - rewrite Rsum_single by exact Hi. apply Rsum_single. exact Hj.
  - intros i' _. destruct (i =? i').
    + apply Rsum_ext. intros j' _. destruct (j =? j'); ring.
    + transitivity (Rsum (fun _ => 0) m); [|apply Rsum_zero].
      apply Rsum_ext. intros j' _. ring.
Qed.

(** [uᵗ (F V Fᵗ + G Gᵗ) w = (uᵗ F) V (Fᵗ w) + (uᵗ G) (Gᵗ w)] *)
Lemma bilf_V_pred (V : Rmatrix) (u w : nat -> R) :
  wf k k V ->
  bilf k k (ent (spec_V_pred F G V)) u w =
  bilf k k (ent V) (vecmat k u (ent F)) (vecmat k w (ent F))
  + vecmat k u (ent G) 0%nat * vecmat k w (ent G) 0%nat.
Proof.
  intros HV.
  pose proof (wf_transpose HF Hk) as WFt.
  pose proof (wf_transpose HG Hk) as WGt.
  pose proof (wf_mmul HF HV Hk) as WFV.
  rewrite bilf_ext with (a' := fun i j =>
             fprod k (fprod k (ent F) (ent V)) (ent (transpose F)) i j
             + fprod 1 (ent G) (ent (transpose G)) i j) (u' := u) (w' := w);
    try reflexivity.
  2:{ intros i j Hi Hj. unfold spec_V_pred.
      rewrite (ent_ew add (wf_mmul WFV WFt Hk) (wf_mmul HG WGt (le_n 1)) Hi Hj).
      real_ops.
      rewrite (ent_mmul WFV WFt Hk Hi Hj), (ent_mmul HG WGt (le_n 1) Hi Hj).
      unfold fprod. f_equal. apply Rsum_ext. intros l Hl.
      rewrite (ent_mmul HF HV Hk Hi Hl). reflexivity. }
  rewrite bilf_plus, bilf_fprod_r, bilf_fprod_l. f_equal.
  - apply bilf_ext; try reflexivity.
    intros l Hl. unfold matvec, vecmat. apply Rsum_ext. intros j Hj.
    rewrite (ent_transpose j HF Hk Hl). ring.
  - rewrite bilf_fprod_l. unfold bilf. simpl. rewrite Rplus_0_l.
    change (vecmat k w (ent G) 0%nat)
      with (Rsum (fun i => w i * ent G i 0%nat) k).
    rewrite <- Rsum_mult_l. apply Rsum_ext. intros j Hj.
    assert (H0 : (0 < 1)%nat) by lia.
    rewrite (ent_transpose j HG Hk H0). ring.
Qed.

Lemma symmetric_V_pred (V : Rmatrix) :
  wf k k V -> symmetric k V -> symmetric k (spec_V_pred F G V).
Proof.
  intros HV Hsym i j Hi Hj.
  rewrite <- (bilf_unit (ent (spec_V_pred F G V)) Hi Hj).
  rewrite <- (bilf_unit (ent (spec_V_pred F G V)) Hj Hi).
  rewrite !(bilf_V_pred _ _ HV).
  rewrite (bilf_sym (ent V) _ _ Hsym). ring.
Qed.

Lemma quad_V_pred (V : Rmatrix) (z : nat -> R) :
  wf k k V ->
  quad k (spec_V_pred F G V) z =
  quad k V (vecmat k z (ent F))
  + vecmat k z (ent G) 0%nat * vecmat k z (ent G) 0%nat.
Proof. intros HV. rewrite !quad_bilf. apply bilf_V_pred. exact HV. Qed.

Lemma psd_V_pred (V : Rmatrix) :
  wf k k V -> psd k V -> psd k (spec_V_pred F G V).
Proof.
  intros HV Hpsd z. rewrite (quad_V_pred z HV).
  pose proof (Hpsd (vecmat k z (ent F))) as Hq.
  pose proof (Rle_0_sqr (vecmat k z (ent G) 0%nat)) as Hs.
  unfold Rsqr in Hs. lra.
Qed.

(** The innovation variance is the quadratic form of [V_pred] at [H]. *)
Lemma spec_r_quad (P : Rmatrix) :
  wf k k P -> spec_r H P = quad k P (ent H 0%nat).
Proof.
  intros HP.
  pose proof (wf_transpose HH (le_n 1)) as WHt.
  pose proof (wf_mmul HH HP Hk) as WHP.
  assert (H0 : (0 < 1)%nat) by lia.
  unfold spec_r. rewrite (ent_mmul WHP WHt Hk H0 H0).
  unfold quad. rewrite Rsum_swap. apply Rsum_ext. intros l Hl.
  rewrite (ent_mmul HH HP Hk H0 Hl), (ent_transpose 0%nat HH (le_n 1) Hl).
  rewrite <- Rsum_mult_r. apply Rsum_ext. intros m _. ring.
Qed.

(** The variance is at least [(H G)²]. *)
Lemma spec_r_lower (V : Rmatrix) :
  wf k k V -> psd k V ->
  vecmat k (ent H 0%nat) (ent G) 0%nat * vecmat k (ent H 0%nat) (ent G) 0%nat
  <= spec_r H (spec_V_pred F G V).
Proof.
  intros HV Hpsd.
  rewrite (spec_r_quad (wf_spec_V_pred Hk HF HG HV)).
  rewrite (quad_V_pred _ HV).
  pose proof (Hpsd (vecmat k (ent H 0%nat) (ent F))). lra.
Qed.

End Covariance.

Section CovarianceUpdate.
Local Open Scope R_scope.
Variables (k : nat) (F G H : Rmatrix).
Hypothesis Hk : (1 <= k)%nat.
Hypothesis HF : wf k k F.
Hypothesis HG : wf k 1 G.
Hypothesis HH : wf 1 k H.

Lemma wf_updated (P : Rmatrix) (r : R) : wf k k P -> wf k k (updated k H P r).
Proof.
  intros HP. unfold updated.
  apply (wf_mmul (m := k)); [|exact HP|exact Hk].
  apply wf_ew; [apply wf_eye|].
  apply (wf_mmul (m := 1)); [apply (wf_spec_K Hk HH r HP)|exact HH|lia].
Qed.

Lemma ent_spec_K (P : Rmatrix) (r : R) (i : nat) :
  wf k k P -> (i < k)%nat ->
  ent (spec_K H P r) i 0 = matvec k (ent P) (ent H 0%nat) i / r.
Proof.
  intros HP Hi.
  pose proof (wf_transpose HH (le_n 1)) as WHt.
  assert (H0 : (0 < 1)%nat) by lia.
  unfold spec_K.
  rewrite (ent_map_map _ (wf_mmul HP WHt Hk) Hi H0). real_ops.
  rewrite (ent_mmul HP WHt Hk Hi H0). unfold matvec. f_equal.
  apply Rsum_ext. intros m Hm.
  rewrite (ent_transpose 0%nat HH (le_n 1) Hm). reflexivity.
Qed.

(** [uᵗ (I - K H) P w = uᵗ P w - (uᵗ P h) (hᵗ P w) / r] *)
Lemma bilf_updated (P : Rmatrix) (r : R) (u w : nat -> R) :
  wf k k P ->
  bilf k k (ent (updated k H P r)) u w =
  bilf k k (ent P) u w
  - bilf k k (ent P) u (ent H 0%nat) / r * bilf k k (ent P) (ent H 0%nat) w.
Proof.
  intros HP.
  pose proof (wf_spec_K Hk HH r HP) as WK.
  pose proof (wf_mmul WK HH (le_n 1)) as WKH.
  pose proof (wf_ew sub (wf_eye k) WKH) as WI.
  set (K := spec_K H P r) in *.
  set (kap := Rsum (fun i => u i * ent K i 0) k).
  rewrite bilf_ext with
    (a' := fprod k (fun i l => (if i =? l then 1 else 0)
                               - ent K i 0 * ent H 0 l) (ent P))
    (u' := u) (w' := w); try reflexivity.
  2:{ intros i j Hi Hj. unfold updated. fold K.
      rewrite (ent_mmul WI HP Hk Hi Hj). unfold fprod.
      apply Rsum_ext. intros l Hl. f_equal.
      rewrite (ent_ew sub (wf_eye k) WKH Hi Hl), (ent_eye Hi Hl).
      rewrite (ent_mmul WK HH (le_n 1) Hi Hl). real_ops. simpl.
      destruct (i =? l); ring. }
  rewrite bilf_fprod_l.
  rewrite bilf_ext with
    (a' := ent P) (u' := fun l => 1 * u l + (- kap) * ent H 0 l) (w' := w);
    try reflexivity.
  2:{ intros l Hl. unfold vecmat.
      rewrite (Rsum_ext _ (fun i => (if l =? i then u i else 0)
                                - (u i * ent K i 0) * ent H 0 l)).
      - rewrite Rsum_minus, Rsum_single, Rsum_mult_r by exact Hl.
        unfold kap. ring.
      - intros i _. rewrite (Nat.eqb_sym i l). destruct (l =? i); ring. }
  rewrite bilf_lin_l.
  assert (Hkap : kap = bilf k k (ent P) u (ent H 0%nat) / r).
  { unfold kap, bilf, Rdiv. rewrite <- Rsum_mult_r.
    apply Rsum_ext. intros i Hi. unfold K.
    rewrite (ent_spec_K r HP Hi). unfold matvec, Rdiv.
    rewrite <- Rmult_assoc. f_equal.
    rewrite <- Rsum_mult_l. apply Rsum_ext. intros j _. ring. }
  rewrite Hkap. ring.
Qed.

Lemma symmetric_updated (P : Rmatrix) (r : R) :
  wf k k P -> symmetric k P -> symmetric k (updated k H P r).
Proof.
  intros HP Hsym i j Hi Hj.
  rewrite <- (bilf_unit (ent (updated k H P r)) Hi Hj).
  rewrite <- (bilf_unit (ent (updated k H P r)) Hj Hi).
  rewrite !(bilf_updated _ _ _ HP).
  rewrite (bilf_sym (ent P) (fun i' => if i =? i' then 1 else 0)
                    (fun j' => if j =? j' then 1 else 0) Hsym).
  rewrite (bilf_sym (ent P) (ent H 0%nat)
                    (fun j' => if j =? j' then 1 else 0) Hsym).
  rewrite (bilf_sym (ent P) (ent H 0%nat)
                    (fun i' => if i =? i' then 1 else 0) Hsym).
  unfold Rdiv. ring.
Qed.

Lemma psd_updated (P : Rmatrix) :
  wf k k P -> symmetric k P -> psd k P -> 0 < spec_r H P ->
  psd k (updated k H P (spec_r H P)).
Proof.
  intros HP Hsym Hpsd Hr z.
  rewrite (spec_r_quad Hk HH HP) in *.
  rewrite !quad_bilf in *. rewrite (bilf_updated _ _ _ HP).
  rewrite (bilf_sym (ent P) (ent H 0%nat) z Hsym).
  pose proof (bilf_cauchy_schwarz (ent P) z (ent H 0%nat) Hsym Hpsd Hr) as CS.
  unfold Rdiv in *. lra.
Qed.

(** *** The invariant of the loop, in exact arithmetic *)

Variable y : list R.
Hypothesis HhG : vecmat k (ent H 0%nat) (ent G) 0%nat <> 0.

Lemma snd_spec_update (yt : R) (x V : Rmatrix) :
  snd (spec_update k F G H yt (x, V)) =
  updated k H (spec_V_pred F G V) (spec_r H (spec_V_pred F G V)).
Proof. reflexivity. Qed.

Lemma spec_r_positive (V : Rmatrix) :
  wf k k V -> psd k V -> 0 < spec_r H (spec_V_pred F G V).
Proof.
  intros HV Hpsd.
  pose proof (spec_r_lower Hk HF HG HH HV Hpsd) as Hlow.
  pose proof (Rsqr_pos_lt _ HhG) as Hs. unfold Rsqr in Hs. lra.
Qed.

Lemma symmetric_psd_initial :
  symmetric k (scale (eye k) (of_Z 100)) /\ psd k (scale (eye k) (of_Z 100)).
Proof.
  assert (Hent : forall i j, (i < k)%nat -> (j < k)%nat ->
            ent (scale (eye k) (of_Z 100)) i j = if i =? j then 100 else 0).
  { intros i j Hi Hj. unfold scale.
    rewrite (ent_map_map _ (wf_eye k) Hi Hj), (ent_eye Hi Hj). real_ops.
    destruct (i =? j); ring. }
  split.
  - intros i j Hi Hj. rewrite !Hent by assumption.
    rewrite (Nat.eqb_sym j i). reflexivity.
  - intros z. unfold quad. apply Rsum_nonneg. intros i Hi.
    rewrite (Rsum_ext _ (fun j => if i =? j then z i * 100 * z j else 0)).
    + rewrite Rsum_single by exact Hi. nra.
    + intros j Hj. rewrite Hent by assumption. destruct (i =? j); ring.
Qed.

(** At every step the covariance [V] is symmetric and positive
    semi-definite. *)
Lemma covariance_invariant (t : nat) :
  symmetric k (snd (spec_state k F G H y t)) /\
  psd k (snd (spec_state k F G H y t)).
Proof.
  induction t as [|t [IHs IHp]].
  - exact symmetric_psd_initial.
  - cbn [spec_state].
    destruct (wf_spec_state y Hk HF HG HH t) as [Wx WV].
    destruct (spec_state k F G H y t) as [x V]. cbn [snd] in *.
    rewrite snd_spec_update.
    pose proof (wf_spec_V_pred Hk HF HG WV) as WP.
    split.
    + apply symmetric_updated; [exact WP|].
      apply symmetric_V_pred; assumption.
    + apply psd_updated; [exact WP| | |].
      * apply symmetric_V_pred; assumption.
      * apply psd_V_pred; assumption.
      * apply spec_r_positive; assumption.
Qed.

Lemma spec_r_at_positive (t : nat) : 0 < spec_r_at k F G H y t.
Proof.
  unfold spec_r_at.
  destruct (wf_spec_state y Hk HF HG HH t) as [_ WV].
  destruct (covariance_invariant t) as [_ Hp].
  apply spec_r_positive; assumption.
Qed.

End CovarianceUpdate.

(** ** The whole loop *)

Section KalmanFilter.
Context {T : Type} {ar : Arith T}.

Lemma kalman_filter_spec (k N : nat) (F G H : matrix T) (y : list T) :
  1 <= k -> wf k k F -> wf k 1 G -> wf 1 k H -> N <= length y ->
  kalman_filter k N F G H y =
  Ok (filled N (spec_e_at k F G H y) N, filled N (spec_r_at k F G H y) N).
Proof.
  intros Hk HF HG HH Hy. unfold kalman_filter.
  rewrite (kalman_run_spec y Hk HF HG HH (N := N) (t := N)) by lia.
  reflexivity.
Qed.

Lemma length_filled (N : nat) (f : nat -> T) : length (filled N f N) = N.
Proof. apply (wf_length (wf_filled N f)). Qed.

Lemma nth_filled (N : nat) (f : nat -> T) (t : nat) :
  t < N -> nth t (filled N f N) [] = [f t].
Proof.
  intros Ht. rewrite filled_all.
  exact (nth_map_seq (fun i => [f i]) [] Ht).
Qed.

(** The loop reads [y] only at the indices below [N]. *)
Lemma kalman_run_reads_prefix (k N : nat) (F G H : matrix T) (y y' : list T) :
  firstn N y = firstn N y' ->
  forall t, t <= N -> kalman_run k N F G H y t = kalman_run k N F G H y' t.
Proof.
  intros Hy t Ht. unfold kalman_run. apply for_each_ext.
  intros s i Hi. apply in_seq in Hi.
  assert (Hget : getitem y i = getitem y' i).
  { assert (Hfn : forall l : list T,
              nth_error l i = nth_error (firstn N l) i).
    { intros l. rewrite nth_error_firstn.
      replace (i <? N) with true by (symmetry; apply Nat.ltb_lt; lia).
      reflexivity. }
    unfold getitem. rewrite (Hfn y), (Hfn y'), Hy. reflexivity. }
  unfold kalman_body. rewrite Hget. reflexivity.
Qed.

End KalmanFilter.

(** ** The procedure and the function

    The objective as a procedure on the interpreter's state computes what
    the function [obj_func_likelihood] computes, and touches nothing of the
    state it finds. *)

Lemma update_app_plus {A : Type} (u l : list A) (i : nat) (x : A) :
  update (u ++ l) (length u + i) x = u ++ update l i x.
Proof. induction u as [|b u IH]; simpl; [reflexivity | now rewrite IH]. Qed.

Lemma update_same {A : Type} (l : list A) (d : A) :
  forall i, update l i (nth i l d) = l.
Proof.
  induction l as [|a l IH]; intros [|i]; simpl; try reflexivity.
  now rewrite IH.
Qed.

Lemma update_twice {A : Type} (l : list A) (x x' : A) :
  forall i, update (update l i x) i x' = update l i x'.
Proof.
  induction l as [|a l IH]; intros [|i]; simpl; try reflexivity.
  now rewrite IH.
Qed.

Lemma nth_update_here {A : Type} (l : list A) (i : nat) (x d : A) :
  i < length l -> nth i (update l i x) d = x.
Proof.
  intros Hi. rewrite nth_update, Nat.eqb_refl.
  rewrite (proj2 (Nat.ltb_lt _ _) Hi). reflexivity.
Qed.

Section ProcedureFacts.
Context {T : Type} {ar : Arith T} {tr : Transc T}.

(** *** The operations on a state whose arrays are [h ++ l]: the arrays
    [l] of the call in progress after the arrays [h] it found. *)

Lemma bind_p_lift {A B : Type} (c : result A) (k : A -> proc T B) (s : store T) :
  bind_p (lift_p c) k s
  = match c with Ok v => k v s | Raise e => (Raise e, s) end.
Proof. unfold bind_p, lift_p. destruct c; reflexivity. Qed.

Lemma bind_p_array_at {B : Type} (p i : nat) (k : matrix T -> proc T B)
      (N py : nat) (vs : list (list T)) (h l : list (matrix T)) :
  p = length h + i ->
  bind_p (array_at p) k (mk_store N py vs (h ++ l))
  = k (nth i l []) (mk_store N py vs (h ++ l)).
Proof.
  intros ->. unfold bind_p, array_at. cbn [arrays].
  rewrite app_nth2_plus. reflexivity.
Qed.

Lemma setitem_p_at (p i a b : nat) (v : T)
      (N py : nat) (vs : list (list T)) (h l : list (matrix T)) :
  p = length h + i ->
  setitem_p p a b v (mk_store N py vs (h ++ l))
  = match setitem (nth i l []) a b v with
    | Ok A' => (Ok tt, mk_store N py vs (h ++ update l i A'))
    | Raise e => (Raise e, mk_store N py vs (h ++ l))
    end.
Proof.
  intros Hp. unfold setitem_p.
  rewrite bind_p_array_at with (i := i) by exact Hp. rewrite bind_p_lift.
  destruct (setitem (nth i l []) a b v) as [A'|e]; [|reflexivity].
  unfold assign_at. cbn [glob_N glob_y vectors arrays].
  rewrite Hp, update_app_plus. reflexivity.
Qed.

Lemma bind_p_setrow_p {B : Type} (p i t : nat) (v : T) (k : unit -> proc T B)
      (N py : nat) (vs : list (list T)) (h l : list (matrix T)) :
  p = length h + i ->
  bind_p (setrow_p p t v) k (mk_store N py vs (h ++ l))
  = match setrow (nth i l []) t v with
    | Ok A' => k tt (mk_store N py vs (h ++ update l i A'))
    | Raise e => (Raise e, mk_store N py vs (h ++ l))
    end.
Proof.
  intros Hp. unfold bind_p at 1. unfold setrow_p.
  rewrite bind_p_array_at with (i := i) by exact Hp. rewrite bind_p_lift.
  destruct (setrow (nth i l []) t v) as [A'|e]; [|reflexivity].
  unfold assign_at. cbn [glob_N glob_y vectors arrays].
  rewrite Hp, update_app_plus. reflexivity.
Qed.

Lemma bind_p_getitem_p {B : Type} (w : view) (i : nat) (k : T -> proc T B)
      (s : store T) :
  bind_p (getitem_p w i) k s
  = match getitem (slice (v_start w) (v_stop w) (contents s (v_base w))) i with
    | Ok v => k v s
    | Raise e => (Raise e, s)
    end.
Proof.
  unfold getitem_p, view_read, vector_at, ret_p, lift_p, contents, bind_p.
  destruct (getitem _ i); reflexivity.
Qed.

(** A loop that assigns into the array at [p] and nowhere else. *)
Lemma for_each_p_in_place (body_p : unit -> nat -> proc T unit)
      (body : matrix T -> nat -> result (matrix T))
      (N py : nat) (vs : list (list T)) (h : list (matrix T)) (i : nat) :
  (forall l u t, i < length l ->
      body_p u t (mk_store N py vs (h ++ l))
      = match body (nth i l []) t with
        | Ok A' => (Ok tt, mk_store N py vs (h ++ update l i A'))
        | Raise e => (Raise e, mk_store N py vs (h ++ l))
        end) ->
  forall ts l u, i < length l ->
    exists A'',
      for_each_p body_p ts u (mk_store N py vs (h ++ l))
      = (outcome tt (for_each body ts (nth i l [])),
         mk_store N py vs (h ++ update l i A'')) /\
      forall A', for_each body ts (nth i l []) = Ok A' -> A'' = A'.
Proof.
  intros Hbody. induction ts as [|t ts IH]; intros l u Hi.
  - exists (nth i l []). destruct u. cbn [for_each_p for_each outcome ret_p].
    rewrite update_same. split; [reflexivity|].
    intros A' E. injection E as <-. reflexivity.
  - cbn [for_each_p for_each]. unfold bind_p at 1. rewrite (Hbody l u t Hi).
    destruct (body (nth i l []) t) as [A1|e]; cbn [bind].
    + destruct (IH (update l i A1) tt) as [A'' [E HA]].
      { rewrite length_update. exact Hi. }
      rewrite (nth_update_here _ _ _ Hi) in E, HA.
      rewrite update_twice in E. exists A''. split; [exact E | exact HA].
    + exists (nth i l []). rewrite update_same. split; [reflexivity|].
      intros A' E. discriminate E.
Qed.

Lemma bind_p_len_p {B : Type} (w : view) (k : nat -> proc T B) (s : store T) :
  bind_p (len_p w) k s
  = k (length (slice (v_start w) (v_stop w) (contents s (v_base w)))) s.
Proof. reflexivity. Qed.

Lemma bind_p_new_array {B : Type} (A : matrix T) (k : nat -> proc T B)
      (N py : nat) (vs : list (list T)) (h : list (matrix T)) :
  bind_p (new_array A) k (mk_store N py vs h)
  = k (length h) (mk_store N py vs (h ++ [A])).
Proof. reflexivity. Qed.

Lemma initialize_FGHQ_p_run (a b : view) (N py : nat) (vs : list (list T))
      (h : list (matrix T)) :
  let la := slice (v_start a) (v_stop a) (nth (v_base a) vs []) in
  let lb := slice (v_start b) (v_stop b) (nth (v_base b) vs []) in
  exists F G H Q : matrix T,
    initialize_FGHQ la lb = Ok (F, G, H, Q) /\
    initialize_FGHQ_p a b (mk_store N py vs h)
    = (Ok (length h + 0, length h + 1, length h + 2, length h + 3),
       mk_store N py vs (h ++ [F; G; H; Q])).
Proof.
  intros la lb.
  destruct (initialize_FGHQ_entries la lb) as [F [G [H [E _]]]].
  exists F, G, H, (eye (Nat.max (length la) (length lb + 1))).
  split; [exact E|].
  unfold initialize_FGHQ in E.
  set (p := length la) in *. set (q := length lb) in *.
  set (k := Nat.max p (q + 1)) in *.
  destruct (for_each (fun F i => ai <- getitem la i ;; setitem F i 0 ai)
                     (seq 0 p) (zeros k k)) as [F1|] eqn:E1;
    [|discriminate E].
  cbn [bind] in E.
  destruct (for_each (fun F i => setitem F i (i + 1) one) (seq 0 (k - 1)) F1)
    as [F2|] eqn:E2; [|discriminate E].
  cbn [bind] in E.
  destruct (for_each (fun G i => bi <- getitem lb i ;;
                                 setitem G (i + 1) 0 (neg bi))
                     (seq 0 q) (zeros k 1)) as [G1|] eqn:E3;
    [|discriminate E].
  cbn [bind] in E.
  destruct (setitem G1 0 0 one) as [G2|] eqn:E4; [|discriminate E].
  cbn [bind] in E.
  destruct (setitem (zeros 1 k) 0 0 one) as [H1|] eqn:E5; [|discriminate E].
  cbn [bind] in E. injection E as <- <- <-.
  unfold initialize_FGHQ_p.
  rewrite bind_p_len_p. cbv beta. rewrite bind_p_len_p. cbv beta zeta.
  unfold contents. cbn [vectors]. fold la lb. fold p q. fold k.
  rewrite bind_p_new_array. cbv beta.
  rewrite bind_p_new_array. cbv beta.
  rewrite bind_p_new_array. cbv beta.
  rewrite <- !app_assoc. cbn [app].
  rewrite !length_app. cbn [length]. rewrite Nat.add_0_r.
  (* the first column of F *)
  unfold bind_p at 1.
  match goal with
  | |- context [for_each_p ?bp (seq 0 p) tt (mk_store N py vs (h ++ ?cur))] =>
      destruct (@for_each_p_in_place bp
                  (fun F i => ai <- getitem la i ;; setitem F i 0 ai)
                  N py vs h 0) with (ts := seq 0 p) (l := cur) (u := tt)
        as [A1 [L1 HA1]]
  end.
  { intros l u t Hl. rewrite bind_p_getitem_p.
    unfold contents. cbn [vectors v_base]. fold la.
    destruct (getitem la t) as [ai|e]; [|reflexivity].
    cbn [bind]. apply setitem_p_at. lia. }
  { simpl. lia. }
  cbn [nth] in L1, HA1. rewrite L1, E1, (HA1 _ E1). cbn [outcome update].
  clear A1 L1 HA1.
  (* the ones next to the diagonal *)
  unfold bind_p at 1.
  match goal with
  | |- context [for_each_p ?bp (seq 0 (k - 1)) tt
                           (mk_store N py vs (h ++ ?cur))] =>
      destruct (@for_each_p_in_place bp
                  (fun F i => setitem F i (i + 1) one)
                  N py vs h 0) with (ts := seq 0 (k - 1)) (l := cur) (u := tt)
        as [A1 [L1 HA1]]
  end.
  { intros l u t Hl. apply setitem_p_at. lia. }
  { simpl. lia. }
  cbn [nth] in L1, HA1. rewrite L1, E2, (HA1 _ E2). cbn [outcome update].
  clear A1 L1 HA1.
  (* the column G *)
  unfold bind_p at 1.
  match goal with
  | |- context [for_each_p ?bp (seq 0 q) tt (mk_store N py vs (h ++ ?cur))] =>
      destruct (@for_each_p_in_place bp
                  (fun G i => bi <- getitem lb i ;;
                              setitem G (i + 1) 0 (neg bi))
                  N py vs h 1) with (ts := seq 0 q) (l := cur) (u := tt)
        as [A1 [L1 HA1]]
  end.
  { intros l u t Hl. rewrite bind_p_getitem_p.
    unfold contents. cbn [vectors v_base]. fold lb.
    destruct (getitem lb t) as [bi|e]; [|reflexivity].
    cbn [bind]. apply setitem_p_at. lia. }
  { simpl. lia. }
  cbn [nth] in L1, HA1. rewrite L1, E3, (HA1 _ E3). cbn [outcome update].
  clear A1 L1 HA1.
  unfold bind_p at 1. rewrite setitem_p_at with (i := 1) by lia.
  cbn [nth]. rewrite E4. cbn [update].
  unfold bind_p at 1. rewrite setitem_p_at with (i := 2) by lia.
  cbn [nth]. rewrite E5. cbn [update].
  rewrite bind_p_new_array. cbv beta. unfold ret_p.
  rewrite <- app_assoc. cbn [app]. rewrite length_app. cbn [length].
  reflexivity.
Qed.

Lemma bind_p_global_y {B : Type} (k : nat -> proc T B) (s : store T) :
  bind_p global_y k s = k (glob_y s) s.
Proof. reflexivity. Qed.

Lemma bind_p_global_N {B : Type} (k : nat -> proc T B) (s : store T) :
  bind_p global_N k s = k (glob_N s) s.
Proof. reflexivity. Qed.

Lemma bind_p_vector_at {B : Type} (p : nat) (k : list T -> proc T B)
      (s : store T) :
  bind_p (vector_at p) k s = k (contents s p) s.
Proof. reflexivity. Qed.

(** One step of a computation: [EL] says what is left to run. *)
Ltac raised EL :=
  rewrite EL; do 2 eexists;
  split; [reflexivity | intros ? D; discriminate D].

Ltac read_array EL idx :=
  rewrite bind_p_array_at with (i := idx) in EL by reflexivity;
  cbn [nth] in EL.

Ltac pure_step EL :=
  rewrite bind_p_lift in EL;
  match type of EL with
  | _ = match ?c with Ok _ => _ | Raise _ => _ end =>
      destruct c eqn:?; cbn [bind fst snd]; cbn [fst snd] in EL;
      [ | raised EL ]
  end.

Ltac write_row EL idx :=
  rewrite bind_p_setrow_p with (i := idx) in EL by reflexivity;
  cbn [nth] in EL;
  match type of EL with
  | _ = match ?c with Ok _ => _ | Raise _ => _ end =>
      destruct c eqn:?; cbn [bind]; cbn [update] in EL;
      [ | raised EL ]
  end.

Lemma kalman_body_p_run (k : nat) (F G H Q : matrix T) (N py : nat)
      (vs : list (list T)) (h : list (matrix T)) (x V e r : matrix T)
      (t : nat) :
  exists e' r' : matrix T,
    kalman_body_p k (length h + 0) (length h + 1) (length h + 2)
                  (length h + 4) (length h + 5) (x, V) t
                  (mk_store N py vs (h ++ [F; G; H; Q; e; r]))
    = (match kalman_body k F G H (nth py vs []) (mk_fstate x V e r) t with
       | Ok s' => Ok (st_x s', st_V s')
       | Raise ex => Raise ex
       end,
       mk_store N py vs (h ++ [F; G; H; Q; e'; r'])) /\
    forall s',
      kalman_body k F G H (nth py vs []) (mk_fstate x V e r) t = Ok s' ->
      e' = st_e s' /\ r' = st_r s'.
Proof.
  remember (kalman_body_p k (length h + 0) (length h + 1) (length h + 2)
              (length h + 4) (length h + 5) (x, V) t
              (mk_store N py vs (h ++ [F; G; H; Q; e; r]))) as run eqn:EL.
  unfold kalman_body_p in EL. unfold kalman_body. cbn [st_x st_V st_e st_r].
  read_array EL 0. read_array EL 1. cbn [fst snd] in EL.
  pure_step EL.
  match goal with v : (matrix T * matrix T)%type |- _ =>
    destruct v as [x_predict V_predict] end.
  cbn [fst snd] in EL.
  (* e[t] = y[t] - (H @ x_predict).item() *)
  rewrite bind_p_global_y, bind_p_vector_at in EL.
  unfold contents in EL. cbn [glob_y vectors] in EL.
  pure_step EL. read_array EL 2. pure_step EL. pure_step EL.
  write_row EL 4.
  (* r[t] = (H @ V_predict @ H.T).item() *)
  read_array EL 2. pure_step EL. pure_step EL. pure_step EL.
  write_row EL 5.
  (* K = V_predict @ H.T / r[t] *)
  read_array EL 2. pure_step EL. read_array EL 5. pure_step EL. pure_step EL.
  (* x = x_predict + K * e[t] *)
  read_array EL 4. pure_step EL. pure_step EL. pure_step EL.
  (* V = (np.eye(k) - K @ H) @ V_predict *)
  read_array EL 2. pure_step EL. pure_step EL. pure_step EL.
  unfold ret_p in EL. rewrite EL. do 2 eexists.
  split; [reflexivity|].
  intros s' E. injection E as <-. split; reflexivity.
Qed.

Lemma kalman_loop_p_run (k : nat) (F G H Q : matrix T) (N py : nat)
      (vs : list (list T)) (h : list (matrix T)) (ts : list nat) :
  forall x V e r : matrix T,
  exists e' r' : matrix T,
    for_each_p (kalman_body_p k (length h + 0) (length h + 1) (length h + 2)
                              (length h + 4) (length h + 5))
               ts (x, V) (mk_store N py vs (h ++ [F; G; H; Q; e; r]))
    = (match for_each (kalman_body k F G H (nth py vs [])) ts
                      (mk_fstate x V e r) with
       | Ok s' => Ok (st_x s', st_V s')
       | Raise ex => Raise ex
       end,
       mk_store N py vs (h ++ [F; G; H; Q; e'; r'])) /\
    forall s',
      for_each (kalman_body k F G H (nth py vs [])) ts (mk_fstate x V e r)
      = Ok s' ->
      e' = st_e s' /\ r' = st_r s'.
Proof.
  induction ts as [|t ts IH]; intros x V e r.
  - exists e, r. split; [reflexivity|].
    intros s' E. injection E as <-. split; reflexivity.
  - cbn [for_each_p for_each]. unfold bind_p at 1.
    destruct (kalman_body_p_run k F G H Q N py vs h x V e r t)
      as [e1 [r1 [E HE]]].
    rewrite E.
    destruct (kalman_body k F G H (nth py vs []) (mk_fstate x V e r) t)
      as [[x1 V1 e1' r1']|ex]; cbn [bind].
    + destruct (HE _ eq_refl) as [-> ->]. cbn [st_x st_V st_e st_r].
      apply IH.
    + exists e1, r1. split; [reflexivity|]. intros s' D. discriminate D.
Qed.

(** A call of the procedure returns what the function [obj_func_likelihood]
    returns on [N], on what [y] holds and on what [theta] holds, and it
    leaves the state it found with new arrays added. *)
Lemma obj_func_likelihood_p_run (theta N py : nat) (vs : list (list T))
      (h : list (matrix T)) :
  exists added : list (matrix T),
    obj_func_likelihood_p theta (mk_store N py vs h)
    = (obj_func_likelihood (mk_globals N (nth py vs [])) (nth theta vs []),
       mk_store N py vs (h ++ added)).
Proof.
  unfold obj_func_likelihood_p. cbv zeta. unfold bind_p at 1.
  destruct (initialize_FGHQ_p_run (mk_view theta 0 3) (mk_view theta 3 (3 + 2))
              N py vs h) as [F [G [H [Q [E EP]]]]].
  cbn [v_base v_start v_stop] in E, EP. unfold slice in E.
  change (3 - 0) with 3 in E. change (3 + 2 - 3) with 2 in E.
  change (skipn 0 (nth theta vs [])) with (nth theta vs []) in E.
  rewrite EP. cbn [fst snd].
  unfold obj_func_likelihood, obj_func_likelihood_pq. cbn [g_N g_y].
  rewrite E. cbn [bind].
  rewrite bind_p_global_N, bind_p_new_array. cbn [glob_N].
  rewrite bind_p_global_N, bind_p_new_array. cbn [glob_N].
  rewrite bind_p_global_N. cbn [glob_N].
  rewrite <- !app_assoc. cbn [app]. rewrite !length_app. cbn [length].
  unfold bind_p at 1.
  destruct (kalman_loop_p_run (Nat.max 3 (2 + 1)) F G H Q N py vs h (seq 0 N)
              (zeros (Nat.max 3 (2 + 1)) 1)
              (scale (eye (Nat.max 3 (2 + 1))) (of_Z 100))
              (zeros N 1) (zeros N 1)) as [e [r [EL HL]]].
  rewrite EL. unfold kalman_filter, kalman_run, kalman_init.
  destruct (for_each (kalman_body (Nat.max 3 (2 + 1)) F G H (nth py vs []))
                     (seq 0 N) _) as [s'|ex]; cbn [bind].
  - destruct (HL _ eq_refl) as [-> ->].
    rewrite bind_p_array_at with (i := 4) by reflexivity. cbn [nth].
    rewrite bind_p_array_at with (i := 5) by reflexivity. cbn [nth].
    rewrite bind_p_global_N. cbn [glob_N]. rewrite bind_p_lift.
    destruct (sigma_hat_of N (st_e s') (st_r s')) as [sigma_hat|ex];
      cbn [bind]; [|eexists; reflexivity].
    rewrite bind_p_array_at with (i := 5) by reflexivity. cbn [nth].
    rewrite bind_p_lift.
    destruct (log_likelihood sigma_hat (st_r s')) as [log_lik|ex];
      cbn [bind]; eexists; reflexivity.
  - eexists. reflexivity.
Qed.

End ProcedureFacts.

(** * The claims of the specification *)

Section BuilderClaims.
Context {T : Type} {ar : Arith T}.

(** C3.  For AR coefficients [a] (length [p]) and MA coefficients [b]
    (length [q]) the builder returns [F], [G], [H] of dimension
    [k = max(p, q+1)]: [F] is [k × k] with [F[i,0] = a[i]] for [i < p],
    [F[i,i+1] = 1] for [i <= k-2] and every other entry 0; [G] is [k × 1]
    with [G[0] = 1], [G[i+1] = -b[i]] for [i < q] and the remaining entries
    0; [H] is [1 × k] with [H[0] = 1] and every other entry 0. *)
Theorem initialize_FGHQ_matrices (a b : list T) :
  let p := length a in
  let q := length b in
  let k := Nat.max p (q + 1) in
  exists F G H Q : matrix T,
    initialize_FGHQ a b = Ok (F, G, H, Q) /\
    wf k k F /\ wf k 1 G /\ wf 1 k H /\
    (forall i, i < p -> ent F i 0 = nth i a zero) /\
    (forall i, i < k - 1 -> ent F i (i + 1) = one) /\
    (forall i j, i < k -> j < k -> j <> i + 1 -> j <> 0 \/ p <= i ->
            ent F i j = zero) /\
    ent G 0 0 = one /\
    (forall i, i < q -> ent G (i + 1) 0 = neg (nth i b zero)) /\
    (forall i, q < i -> i < k -> ent G i 0 = zero) /\
    ent H 0 0 = one /\
    (forall j, 0 < j -> j < k -> ent H 0 j = zero).
Proof.
  intros p q k.
  destruct (initialize_FGHQ_entries a b)
    as [F [G [H [E [WF [WG [WH [EF [EG EH]]]]]]]]].
  fold p q k in E, WF, WG, WH, EF, EG.
  exists F, G, H, (eye k).
  repeat (split; [assumption|]).
  repeat split.
  - intros i Hi. rewrite EF.
    replace (0 =? i + 1) with false by (symmetry; apply Nat.eqb_neq; lia).
    rewrite andb_false_r.
    replace (i <? p) with true by (symmetry; apply Nat.ltb_lt; lia).
    reflexivity.
  - intros i Hi. rewrite EF.
    replace (i <? k - 1) with true by (symmetry; apply Nat.ltb_lt; lia).
    rewrite Nat.eqb_refl. reflexivity.
  - intros i j Hi Hj Hne Hor. rewrite EF.
    replace (j =? i + 1) with false by (symmetry; apply Nat.eqb_neq; lia).
    rewrite andb_false_r.
    destruct Hor as [Hj0|Hp].
    + replace (j =? 0) with false by (symmetry; apply Nat.eqb_neq; lia).
      rewrite andb_false_r. reflexivity.
    + replace (i <? p) with false by (symmetry; apply Nat.ltb_ge; lia).
      reflexivity.
  - rewrite EG. reflexivity.
  - intros i Hi. rewrite EG.
    replace (i + 1 =? 0) with false by (symmetry; apply Nat.eqb_neq; lia).
    replace (1 <=? i + 1) with true by (symmetry; apply Nat.leb_le; lia).
    replace (i + 1 <? q + 1) with true by (symmetry; apply Nat.ltb_lt; lia).
    replace (i + 1 - 1) with i by lia. reflexivity.
  - intros i Hq Hi. rewrite EG.
    replace (i =? 0) with false by (symmetry; apply Nat.eqb_neq; lia).
    replace (i <? q + 1) with false by (symmetry; apply Nat.ltb_ge; lia).
    rewrite andb_false_r. reflexivity.
  - rewrite EH. reflexivity.
  - intros j Hj0 Hj. rewrite EH.
    replace (j =? 0) with false by (symmetry; apply Nat.eqb_neq; lia).
    reflexivity.
Qed.

(** C8.  The edge cases [p = 0] and [q = 0]: with no AR coefficient [F] is
    the bare shift matrix, with no MA coefficient [G] is the first unit
    vector, and for [p = 1], [q = 0] the builder yields [k = 1] with
    [F = [[a1]]], [G = [[1]]], [H = [[1]]]. *)
Theorem initialize_FGHQ_edge_cases :
  (forall b : list T,
      exists F G H Q : matrix T,
        initialize_FGHQ [] b = Ok (F, G, H, Q) /\
        wf (length b + 1) (length b + 1) F /\
        forall i j, ent F i j =
               if (i <? length b) && (j =? i + 1) then one else zero) /\
  (forall a : list T,
      exists F G H Q : matrix T,
        initialize_FGHQ a [] = Ok (F, G, H, Q) /\
        wf (Nat.max (length a) 1) 1 G /\
        forall i j, ent G i j = if (i =? 0) && (j =? 0) then one else zero) /\
  (forall a1 : T,
      initialize_FGHQ [a1] [] = Ok ([[a1]], [[one]], [[one]], [[one]])).
Proof.
  split; [|split].
  - intros b.
    destruct (initialize_FGHQ_entries [] b)
      as [F [G [H [E [WF [_ [_ [EF _]]]]]]]].
    cbn [length Nat.max] in E, WF, EF.
    exists F, G, H, (eye (length b + 1)).
    split; [exact E|]. split; [exact WF|].
    intros i j. rewrite EF.
    replace (length b + 1 - 1) with (length b) by lia.
    destruct ((i <? length b) && (j =? i + 1)); [reflexivity|].
    destruct (j =? 0); reflexivity.
  - intros a.
    destruct (initialize_FGHQ_entries a [])
      as [F [G [H [E [_ [WG [_ [_ [EG _]]]]]]]]].
    cbn [length Nat.add] in E, WG, EG.
    exists F, G, H, (eye (Nat.max (length a) 1)).
    split; [exact E|]. split; [exact WG|].
    intros i j. rewrite EG.
    destruct ((i =? 0) && (j =? 0)); [reflexivity|].
    replace ((1 <=? i) && (i <? 1)) with false; [reflexivity|].
    symmetry. apply andb_false_iff.
    destruct (Nat.leb_spec 1 i); [right; apply Nat.ltb_ge; lia|left; reflexivity].
  - intros a1. reflexivity.
Qed.

(** C6, as the code has it.  The builder is given the two coefficient
    sequences only and reads [p] and [q] off their lengths; it raises
    nothing and succeeds on every input, with arrays of dimension
    [k = max(len a, len b + 1)]. *)
Theorem initialize_FGHQ_total (a b : list T) :
  let k := Nat.max (length a) (length b + 1) in
  exists F G H Q : matrix T,
    initialize_FGHQ a b = Ok (F, G, H, Q) /\
    wf k k F /\ wf k 1 G /\ wf 1 k H /\ wf k k Q.
Proof.
  intros k.
  destruct (initialize_FGHQ_entries a b) as [F [G [H [E [WF [WG [WH _]]]]]]].
  exists F, G, H, (eye k).
  split; [exact E|]. repeat (split; [assumption|]). apply wf_eye.
Qed.

End BuilderClaims.

Section RecursionClaims.
Context {T : Type} {ar : Arith T}.

(** C1.  For the model [(F, G, H)] built from any coefficient vector and
    any observations [y] with [N] of them read, the loop starts from
    [x = 0] and [V = 100 I]; at each [t < N], with [x] and [V] the values
    the loop holds before pass [t], it computes [x_pred = F x],
    [V_pred = F V Fᵗ + G Gᵗ], [e[t] = y[t] - H x_pred],
    [r[t] = H V_pred Hᵗ], [K = V_pred Hᵗ / r[t]], and leaves
    [x = x_pred + K e[t]] and [V = (I - K H) V_pred]; it produces [e] and
    [r], both of length [N]. *)
Theorem kalman_filter_recursion (a b y : list T) (N : nat) :
  N <= length y ->
  let k := Nat.max (length a) (length b + 1) in
  exists F G H Q e r : matrix T,
    initialize_FGHQ a b = Ok (F, G, H, Q) /\
    kalman_filter k N F G H y = Ok (e, r) /\
    length e = N /\ length r = N /\
    (exists s0, kalman_run k N F G H y 0 = Ok s0 /\
           st_x s0 = zeros k 1 /\ st_V s0 = scale (eye k) (of_Z 100)) /\
    forall t, t < N ->
      exists s s',
        kalman_run k N F G H y t = Ok s /\
        kalman_run k N F G H y (S t) = Ok s' /\
        let x_pred := mmul F (st_x s) in
        let V_pred := ew add (mmul (mmul F (st_V s)) (transpose F))
                             (mmul G (transpose G)) in
        let K := map (map (fun v => div v (ent r t 0)))
                     (mmul V_pred (transpose H)) in
        nth t e [] = [sub (nth t y zero) (ent (mmul H x_pred) 0 0)] /\
        nth t r [] = [ent (mmul (mmul H V_pred) (transpose H)) 0 0] /\
        st_x s' = ew add x_pred (scale K (ent e t 0)) /\
        st_V s' = mmul (ew sub (eye k) (mmul K H)) V_pred.
Proof.
  intros Hy k.
  destruct (initialize_FGHQ_entries a b) as [F [G [H [E [WF [WG [WH _]]]]]]].
  fold k in E, WF, WG, WH.
  assert (Hk : 1 <= k) by (unfold k; lia).
  exists F, G, H, (eye k).
  exists (filled N (spec_e_at k F G H y) N), (filled N (spec_r_at k F G H y) N).
  split; [exact E|].
  split; [apply kalman_filter_spec; assumption|].
  split; [apply length_filled|]. split; [apply length_filled|].
  split.
  - eexists. split; [reflexivity|]. split; reflexivity.
  - intros t Ht.
    do 2 eexists.
    split; [apply (kalman_run_spec y Hk WF WG WH (N := N) (t := t)); lia|].
    split; [apply (kalman_run_spec y Hk WF WG WH (N := N) (t := S t)); lia|].
    cbn [st_x st_V].
    rewrite !nth_filled, !ent_filled by exact Ht.
    repeat split.
Qed.

(** C4, as the code has it.  The recursion has no check on [r[t]] and no
    error of its own: for arrays of matching shapes and at least [N]
    observations it divides by [r[t]] at every pass, whatever its sign, and
    returns [e] and [r] of length [N]. *)
Theorem kalman_filter_total (k N : nat) (F G H : matrix T) (y : list T) :
  1 <= k -> wf k k F -> wf k 1 G -> wf 1 k H -> N <= length y ->
  exists e r : matrix T,
    kalman_filter k N F G H y = Ok (e, r) /\ length e = N /\ length r = N /\
    forall t, t < N ->
      exists s s',
        kalman_run k N F G H y t = Ok s /\
        kalman_run k N F G H y (S t) = Ok s' /\
        forall i, i < k ->
          ent (st_x s') i 0 =
          add (ent (mmul F (st_x s)) i 0)
              (mul (div (ent (mmul (spec_V_pred F G (st_V s)) (transpose H)) i 0)
                        (ent r t 0))
                   (ent e t 0)).
Proof.
  intros Hk WF WG WH Hy.
  exists (filled N (spec_e_at k F G H y) N), (filled N (spec_r_at k F G H y) N).
  split; [apply kalman_filter_spec; assumption|].
  split; [apply length_filled|]. split; [apply length_filled|].
  intros t Ht. do 2 eexists.
  split; [apply (kalman_run_spec y Hk WF WG WH (N := N) (t := t)); lia|].
  split; [apply (kalman_run_spec y Hk WF WG WH (N := N) (t := S t)); lia|].
  intros i Hi. cbn [st_x st_V spec_state].
  destruct (wf_spec_state y Hk WF WG WH t) as [Wx WV].
  rewrite !ent_filled by exact Ht. unfold spec_e_at, spec_r_at.
  destruct (spec_state k F G H y t) as [x V]. cbn [fst snd] in *.
  unfold spec_update. cbn [fst snd].
  pose proof (wf_spec_x_pred Hk WF Wx) as Wxp.
  pose proof (wf_spec_V_pred Hk WF WG WV) as WVp.
  pose proof (wf_spec_K Hk WH (spec_r H (spec_V_pred F G V)) WVp) as WK.
  assert (H0 : 0 < 1) by lia.
  rewrite (ent_ew add Wxp (wf_scale _ WK) Hi H0).
  unfold scale. rewrite (ent_map_map _ WK Hi H0).
  unfold spec_K.
  rewrite (ent_map_map _ (wf_mmul WVp (wf_transpose WH (le_n 1)) Hk) Hi H0).
  reflexivity.
Qed.

End RecursionClaims.

Section PurityClaims.
Context {T : Type} {ar : Arith T} {tr : Transc T}.

(** C9.  Two evaluations of the objective on the same [theta] return
    identical results (the same value or the same exception).  A call made
    in a state [s] returns a result [v] that is a function of what [theta]
    holds, of [N] and of what [y] holds; it leaves [N], [y], [theta] and
    every array of [s] as they were and only adds arrays of its own.  So
    the second call, made in the state the first one left, returns [v]
    again; and so does a call in any other state in which [N], [y] and
    [theta] hold the same. *)
Theorem obj_func_likelihood_p_deterministic (theta : nat) (s : store T) :
  exists (v : result T) (s1 s2 : store T),
    obj_func_likelihood_p theta s = (v, s1) /\
    obj_func_likelihood_p theta s1 = (v, s2) /\
    extends s s1 /\ extends s1 s2 /\
    v = obj_func_likelihood (mk_globals (glob_N s) (contents s (glob_y s)))
                            (contents s theta) /\
    forall (theta' : nat) (s' : store T),
      glob_N s' = glob_N s ->
      contents s' (glob_y s') = contents s (glob_y s) ->
      contents s' theta' = contents s theta ->
      fst (obj_func_likelihood_p theta' s') = v.
Proof.
  destruct s as [N py vs h].
  destruct (obj_func_likelihood_p_run theta N py vs h) as [added1 E1].
  destruct (obj_func_likelihood_p_run theta N py vs (h ++ added1))
    as [added2 E2].
  do 3 eexists.
  split; [exact E1|]. split; [exact E2|].
  split; [repeat split; eexists; reflexivity|].
  split; [repeat split; eexists; reflexivity|].
  split; [reflexivity|].
  intros theta' [N' py' vs' h'] HN Hy Hth.
  unfold contents in *. cbn [glob_N glob_y vectors] in *.
  destruct (obj_func_likelihood_p_run theta' N' py' vs' h') as [added' E'].
  rewrite E'. cbn [fst]. rewrite HN, Hy, Hth. reflexivity.
Qed.

End PurityClaims.

(** ** The claims on concrete inputs *)

Section FloatExamples.
Local Open Scope float_scope.

(** C6: the objective declares [q = 2]; with four coefficients the slice
    [b = theta[3:5]] has one entry, and the builder, which is not told [q],
    builds the model of an ARMA(3,1) instead of failing. *)
Lemma initialize_FGHQ_accepts_short_b :
  let theta := [0.5; 0.25; 0.125; 0.5] in
  let a := firstn 3 theta in
  let b := firstn 2 (skipn 3 theta) in
  length a = 3%nat /\ length b <> 2%nat /\
  initialize_FGHQ a b =
  Ok ([[0.5; 1; 0]; [0.25; 0; 1]; [0.125; 0; 0]],
      [[1]; [-0.5]; [0]], [[1; 0; 0]], eye 3).
Proof.
  cbv zeta. split; [reflexivity|]. split; [discriminate|].
  vm_compute. reflexivity.
Qed.

(** C4: the arrays the builder returns for
    [theta = [3e7, -2.5e6, -2, 0, 0]], run on four observations equal to
    [1].  In binary64 the third innovation variance comes out negative
    ([r[2] = -0x1.625a045266b9cp+0], about [-1.384]: the subtraction in
    [(I - K H) V_predict] has cancelled).  The loop divides by it, makes
    pass 3 as well, and returns [e] and [r] without an error
    ([e[1] = -0x1.c9c37eeaaaaabp+24] is about [-29999998.9],
    [e[2] = -0x1.22be5ef5bb40cp+24] about [-19054174.96]). *)
Lemma kalman_filter_divides_by_negative_variance :
  let theta := [3e7; -2.5e6; -2; 0; 0] in
  let y := [1; 1; 1; 1] in
  let F := [[3e7; 1; 0]; [-2.5e6; 0; 1]; [-2; 0; 0]] in
  let G := [[1]; [-0]; [-0]] in
  let H := [[1; 0; 0]] in
  let e := [[1]; [-0x1.c9c37eeaaaaabp+24]; [-0x1.22be5ef5bb40cp+24];
            [-27499997]] in
  let r := [[90000000000000096]; [101.625]; [-0x1.625a045266b9cp+0]; [1]] in
  initialize_FGHQ (firstn 3 theta) (firstn 2 (skipn 3 theta))
  = Ok (F, G, H, eye 3) /\
  kalman_filter 3 4 F G H y = Ok (e, r) /\
  PrimFloat.ltb (ent r 2 0) 0 = true /\
  kalman_run 3 4 F G H y 3
  = Ok (mk_fstate [[1]; [-2500002]; [-2]]
          [[0; 0; 0]; [0; 0; 0]; [0; 0; 0]]
          [[1]; [-0x1.c9c37eeaaaaabp+24]; [-0x1.22be5ef5bb40cp+24]; [0]]
          [[90000000000000096]; [101.625]; [-0x1.625a045266b9cp+0]; [0]]).
Proof. cbv zeta. repeat split; vm_compute; reflexivity. Qed.

(** In binary64 the predicted covariance is symmetric only up to
    rounding.  For the stable coefficients [a = [23/32, -9/32, 5/32]]
    (the roots of [z³ - a₁ z² - a₂ z - a₃] have moduli of about 0.65,
    0.49 and 0.49) and [b = [5/16, 1/8]], the [V_predict] of pass 1 has
    [V_predict[0,1]] (about -3.1746794718021545) and [V_predict[1,0]]
    (about -3.1746794718021536) two units in the last place apart, and
    [V_predict[1,2]] is not [V_predict[2,1] = 5/128]. *)
Lemma V_predict_rounding_asymmetry :
  let theta := [0.71875; -0.28125; 0.15625; 0.3125; 0.125] in
  exists (F G H Q : matrix float) (s : fstate)
         (x_predict V_predict : matrix float),
    initialize_FGHQ (firstn 3 theta) (firstn 2 (skipn 3 theta))
    = Ok (F, G, H, Q) /\
    kalman_run 3 2 F G H [1; 1] 1 = Ok s /\
    kalman_predict F G (st_x s) (st_V s) = Ok (x_predict, V_predict) /\
    ent V_predict 0 1 = -0x1.965be59d561e9p+1 /\
    ent V_predict 1 0 = -0x1.965be59d561e7p+1 /\
    ent V_predict 1 2 = 0x1.4000000000028p-5 /\
    ent V_predict 2 1 = 0.0390625.
Proof.
  cbv zeta. do 7 eexists.
  split; [vm_compute; reflexivity|].
  split; [vm_compute; reflexivity|].
  split; [vm_compute; reflexivity|].
  repeat split; vm_compute; reflexivity.
Qed.

(** Where the loop does raise: with fewer than [N] observations [y[t]] is
    out of range. *)
Lemma kalman_filter_short_series :
  kalman_filter 1 2 [[0.5]] [[1]] [[1]] [1] = Raise IndexError.
Proof. vm_compute. reflexivity. Qed.

Lemma kalman_filter_recursion_witness :
  2%nat <= length [1; 0.5] /\
  exists F G H Q e r : matrix float,
    initialize_FGHQ [0.5] [] = Ok (F, G, H, Q) /\
    kalman_filter 1 2 F G H [1; 0.5] = Ok (e, r) /\
    length e = 2%nat /\ length r = 2%nat.
Proof.
  split; [simpl; lia|].
  destruct (@kalman_filter_recursion float float_Arith [0.5] [] [1; 0.5] 2)
    as [F [G [H [Q [e [r [E [K [Le [Lr _]]]]]]]]]]; [simpl; lia|].
  exists F, G, H, Q, e, r. repeat split; assumption.
Defined.

Lemma kalman_filter_total_witness :
  exists e r : matrix float,
    kalman_filter 3 4 [[3e7; 1; 0]; [-2.5e6; 0; 1]; [-2; 0; 0]]
                  [[1]; [-0]; [-0]] [[1; 0; 0]] [1; 1; 1; 1] = Ok (e, r) /\
    length e = 4%nat /\ length r = 4%nat.
Proof.
  destruct (@kalman_filter_total float float_Arith 3 4
              [[3e7; 1; 0]; [-2.5e6; 0; 1]; [-2; 0; 0]]
              [[1]; [-0]; [-0]] [[1; 0; 0]] [1; 1; 1; 1])
    as [e [r [K [Le [Lr _]]]]].
  - lia.
  - split; [reflexivity | repeat constructor].
  - split; [reflexivity | repeat constructor].
  - split; [reflexivity | repeat constructor].
  - simpl; lia.
  - exists e, r. repeat split; assumption.
Defined.

End FloatExamples.

(** ** The likelihood evaluator *)

Section EvaluatorFacts.
Context {T : Type} {ar : Arith T} {tr : Transc T}.

Lemma elementwise_same_shape (op : T -> T -> T) (n m : nat) (A B : matrix T) :
  wf n m A -> wf n m B -> elementwise op A B = Ok (ew op A B).
Proof.
  intros HA HB. destruct n as [|n].
  - destruct A; [|destruct HA; discriminate].
    destruct B; [|destruct HB; discriminate]. reflexivity.
  - apply (elementwise_Ok op HA HB). lia.
Qed.

Lemma wf_square (n m : nat) (A : matrix T) : wf n m A -> wf n m (square A).
Proof. apply wf_map_map. Qed.

Lemma sigma_hat_of_Ok (N : nat) (e r : matrix T) :
  wf N 1 e -> wf N 1 r ->
  sigma_hat_of N e r =
  Ok (div (np_sum (ew div (square e) r)) (of_Z (Z.of_nat N))).
Proof.
  intros He Hr. unfold sigma_hat_of.
  rewrite (elementwise_same_shape div (wf_square He) Hr). reflexivity.
Qed.

(** The entries of a column, from top to bottom. *)
Lemma concat_col (A : matrix T) :
  forall n, wf n 1 A -> concat A = map (fun t => ent A t 0) (seq 0 n).
Proof.
  induction A as [|row A IH]; intros n [Hn Hrows]; simpl in Hn; subst n.
  - reflexivity.
  - inversion Hrows as [|? ? Hrow HA]; subst.
    destruct row as [|v [|w row]]; simpl in Hrow; try discriminate.
    cbn [length seq map concat app]. unfold ent at 1. cbn [nth]. f_equal.
    rewrite <- seq_shift, map_map.
    apply (IH (length A)). split; [reflexivity | exact HA].
Qed.

(** [np.sum] of a column is the sum of its entries. *)
Lemma np_sum_upto (n : nat) (A : matrix T) :
  wf n 1 A -> np_sum A = sum_upto (fun t => ent A t 0) n.
Proof.
  intros HA. unfold np_sum, sum_upto. rewrite (concat_col HA). reflexivity.
Qed.

Lemma sum_upto_ext (f g : nat -> T) (n : nat) :
  (forall t, t < n -> f t = g t) -> sum_upto f n = sum_upto g n.
Proof.
  intros Hfg. unfold sum_upto. f_equal. apply map_ext_in.
  intros t Ht. apply Hfg. apply in_seq in Ht. lia.
Qed.

(** The objective once the builder and the loop have run. *)
Lemma obj_func_likelihood_unfold (env : globals) (theta : list T) :
  3 <= length theta -> g_N env <= length (g_y env) ->
  exists F G H : matrix T,
    initialize_FGHQ (firstn 3 theta) (firstn 2 (skipn 3 theta))
    = Ok (F, G, H, eye 3) /\
    wf 3 3 F /\ wf 3 1 G /\ wf 1 3 H /\
    (forall i j, ent G i j =
            if (i =? 0) && (j =? 0) then one
            else if (1 <=? i) && (i <? length (firstn 2 (skipn 3 theta)) + 1)
                    && (j =? 0)
                 then neg (nth (i - 1) (firstn 2 (skipn 3 theta)) zero)
                 else zero) /\
    (forall i j, ent H i j = if (i =? 0) && (j =? 0) then one else zero) /\
    let e := filled (g_N env) (spec_e_at 3 F G H (g_y env)) (g_N env) in
    let r := filled (g_N env) (spec_r_at 3 F G H (g_y env)) (g_N env) in
    kalman_filter 3 (g_N env) F G H (g_y env) = Ok (e, r) /\
    obj_func_likelihood env theta =
    (sigma_hat <- sigma_hat_of (g_N env) e r ;;
     log_lik <- log_likelihood sigma_hat r ;;
     Ok (neg log_lik)).
Proof.
  intros Hth Hy.
  destruct (initialize_FGHQ_entries (firstn 3 theta) (firstn 2 (skipn 3 theta)))
    as [F [G [H [E [WF [WG [WH [_ [EG EH]]]]]]]]].
  assert (Hla : length (firstn 3 theta) = 3) by (rewrite length_firstn; lia).
  assert (Hlb : length (firstn 2 (skipn 3 theta)) <= 2)
    by (rewrite length_firstn; lia).
  assert (Hk : Nat.max (length (firstn 3 theta))
                       (length (firstn 2 (skipn 3 theta)) + 1) = 3) by lia.
  rewrite Hk in E, WF, WG, WH.
  exists F, G, H.
  split; [exact E|]. split; [exact WF|]. split; [exact WG|].
  split; [exact WH|]. split; [exact EG|]. split; [exact EH|].
  cbv zeta.
  assert (K : kalman_filter 3 (g_N env) F G H (g_y env) =
              Ok (filled (g_N env) (spec_e_at 3 F G H (g_y env)) (g_N env),
                  filled (g_N env) (spec_r_at 3 F G H (g_y env)) (g_N env)))
    by (apply kalman_filter_spec; auto).
  split; [exact K|].
  unfold obj_func_likelihood, obj_func_likelihood_pq.
  rewrite E. cbn [bind Nat.max Nat.add]. rewrite K. reflexivity.
Qed.

End EvaluatorFacts.

(** ** The model over the real numbers *)

Section RealModel.
Local Open Scope R_scope.

(** For the arrays of the builder, [H G = 1]. *)
Lemma builder_HG (k : nat) (G H : Rmatrix) :
  (1 <= k)%nat ->
  (forall i j, ent H i j = if (i =? 0) && (j =? 0) then one else zero) ->
  ent G 0 0 = one ->
  vecmat k (ent H 0%nat) (ent G) 0%nat = 1.
Proof.
  intros Hk EH EG. unfold vecmat.
  rewrite (Rsum_ext _ (fun i => if 0 =? i then ent G i 0 else 0)).
  - rewrite Rsum_single by lia. rewrite EG. reflexivity.
  - intros i _. rewrite EH. rewrite Nat.eqb_refl. cbn [andb].
    destruct i; real_ops; cbn [Nat.eqb]; ring.
Qed.

(** The model of any coefficient vectors, with what the covariance
    recursion needs of it. *)
Lemma builder_model (a b : list R) :
  let k := Nat.max (length a) (length b + 1) in
  exists F G H : Rmatrix,
    initialize_FGHQ a b = Ok (F, G, H, eye k) /\
    (1 <= k)%nat /\ wf k k F /\ wf k 1 G /\ wf 1 k H /\
    vecmat k (ent H 0%nat) (ent G) 0%nat <> 0.
Proof.
  intros k.
  destruct (initialize_FGHQ_entries a b)
    as [F [G [H [E [WF [WG [WH [_ [EG EH]]]]]]]]].
  fold k in E, WF, WG, WH.
  assert (Hk : (1 <= k)%nat) by (unfold k; lia).
  exists F, G, H. repeat (split; [assumption|]).
  rewrite (builder_HG G H Hk EH); [lra|]. rewrite EG. reflexivity.
Qed.

(** From [x = 0] the first prediction [H F x] is [0]. *)
Lemma first_prediction_zero (k : nat) (F H : Rmatrix) :
  (1 <= k)%nat -> wf k k F -> wf 1 k H ->
  ent (mmul H (spec_x_pred F (zeros k 1))) 0 0 = 0.
Proof.
  intros Hk HF HH.
  pose proof (wf_mmul HF (wf_zeros k 1) Hk) as Wxp.
  assert (H0 : (0 < 1)%nat) by lia.
  unfold spec_x_pred. rewrite (ent_mmul HH Wxp Hk H0 H0).
  rewrite (Rsum_ext _ (fun _ => 0)); [apply Rsum_zero|].
  intros l Hl. rewrite (ent_mmul HF (wf_zeros k 1) Hk Hl H0).
  rewrite (Rsum_ext _ (fun _ => 0)); [rewrite Rsum_zero; ring|].
  intros m _. rewrite ent_zeros. unfold zero. cbn [of_Z R_Arith]. ring.
Qed.

(** In exact arithmetic, on a series of zeros the state stays [0] and so
    does every innovation. *)
Lemma zero_series_innovations (k : nat) (F G H : Rmatrix) (y : list R) :
  (1 <= k)%nat -> wf k k F -> wf k 1 G -> wf 1 k H ->
  (forall t, nth t y 0 = 0) ->
  forall t, fst (spec_state k F G H y t) = zeros k 1 /\
       spec_e_at k F G H y t = 0.
Proof.
  intros Hk HF HG HH Hy.
  assert (Step : forall t, fst (spec_state k F G H y t) = zeros k 1 ->
                      spec_e_at k F G H y t = 0).
  { intros t Hx. unfold spec_e_at, spec_e. rewrite Hx.
    rewrite (first_prediction_zero Hk HF HH).
    change (@zero R R_Arith) with 0. rewrite Hy. real_ops. ring. }
  induction t as [|t [IHx IHe]].
  - split; [reflexivity|]. apply Step. reflexivity.
  - assert (Hx : fst (spec_state k F G H y (S t)) = zeros k 1).
    { destruct (wf_spec_state y Hk HF HG HH (S t)) as [Wx _].
      apply (wf_ext Wx (wf_zeros k 1)). intros i j Hi Hj.
      assert (j = 0%nat) by lia. subst j.
      rewrite ent_zeros. cbn [spec_state].
      destruct (wf_spec_state y Hk HF HG HH t) as [Wxt WVt].
      unfold spec_e_at in IHe.
      destruct (spec_state k F G H y t) as [x V]. cbn [fst snd] in *.
      subst x. unfold spec_update. cbn [fst snd].
      change (@zero R R_Arith) with 0 in *.
      rewrite IHe.
      pose proof (wf_spec_x_pred Hk HF (wf_zeros k 1)) as Wxp.
      pose proof (wf_spec_V_pred Hk HF HG WVt) as WVp.
      pose proof (wf_spec_K Hk HH (spec_r H (spec_V_pred F G V)) WVp) as WK.
      rewrite (ent_ew add Wxp (wf_scale 0 WK) Hi Hj).
      unfold scale. rewrite (ent_map_map _ WK Hi Hj).
      unfold spec_x_pred.
      rewrite (ent_mmul HF (wf_zeros k 1) Hk Hi Hj).
      rewrite (Rsum_ext _ (fun _ => 0)); [rewrite Rsum_zero; real_ops; ring|].
      intros m _. rewrite ent_zeros. unfold zero. cbn [of_Z R_Arith]. ring. }
    split; [exact Hx | apply Step; exact Hx].
Qed.

(** [np.sum(e**2 / r) / N] is the profiled variance of the specification. *)
Lemma sigma_hat_value (N : nat) (e r : Rmatrix) :
  wf N 1 e -> wf N 1 r ->
  div (np_sum (ew div (square e) r)) (of_Z (Z.of_nat N)) = sigma2_spec N e r.
Proof.
  intros He Hr. unfold sigma2_spec.
  rewrite (np_sum_col (wf_ew div (wf_square He) Hr)).
  real_ops. rewrite <- INR_IZR_INZ. unfold Rdiv at 1.
  rewrite Rmult_comm. f_equal; [unfold Rdiv; ring|].
  apply Rsum_ext. intros t Ht.
  assert (H0 : (0 < 1)%nat) by lia.
  rewrite (ent_ew Rdiv (wf_square He) Hr Ht H0).
  unfold square. rewrite (ent_map_map _ He Ht H0). real_ops. simpl. 
  unfold Rdiv. ring.
Qed.

(** The value of [log_likelihood] is the concentrated log-likelihood. *)
Lemma log_likelihood_value (N : nat) (e r : Rmatrix) :
  wf N 1 r ->
  log_likelihood (sigma2_spec N e r) r = Ok (logL_spec N e r).
Proof.
  intros Hr. unfold log_likelihood, logL_spec. f_equal.
  rewrite (wf_length Hr), (np_sum_col (wf_map_map log Hr)).
  real_ops. rewrite <- INR_IZR_INZ.
  rewrite (Rsum_ext (fun t => ent (map (map ln) r) t 0)
                    (fun t => ln (ent r t 0))).
  - ring.
  - intros t Ht. apply (ent_map_map ln Hr Ht). lia.
Qed.

End RealModel.

Section PredictFacts.
Context {T : Type} {ar : Arith T}.

Lemma kalman_predict_Ok (k : nat) (F G x V : matrix T) :
  1 <= k -> wf k k F -> wf k 1 G -> wf k 1 x -> wf k k V ->
  kalman_predict F G x V = Ok (spec_x_pred F x, spec_V_pred F G V).
Proof.
  intros Hk HF HG Hx HV.
  pose proof (wf_transpose HF Hk) as WFt.
  pose proof (wf_transpose HG Hk) as WGt.
  pose proof (wf_mmul HF HV Hk) as WFV.
  unfold kalman_predict.
  rewrite (matmul_Ok HF Hx Hk). cbn [bind].
  rewrite (matmul_Ok HF HV Hk). cbn [bind].
  rewrite (matmul_Ok WFV WFt Hk). cbn [bind].
  rewrite (matmul_Ok HG WGt Hk). cbn [bind].
  rewrite (elementwise_Ok add (wf_mmul WFV WFt Hk) (wf_mmul HG WGt (le_n 1)) Hk).
  reflexivity.
Qed.

End PredictFacts.

Section EvaluatorClaims.
Context {T : Type} {ar : Arith T} {tr : Transc T}.

(** C5, as the code has it.  The evaluator checks nothing and raises
    nothing: for innovations and variances of shape [(N, 1)], whatever
    their values, [sigma_hat] is [np.sum(e**2 / r) / N], and for every
    [sigma_hat], positive or not, [log_likelihood] returns
    [-0.5 (N log(2π) + N log(sigma_hat) + Σ log r[t] + N)]. *)
Theorem likelihood_evaluator_total (N : nat) (e r : matrix T) :
  wf N 1 e -> wf N 1 r ->
  sigma_hat_of N e r
  = Ok (div (np_sum (ew div (square e) r)) (of_Z (Z.of_nat N))) /\
  forall sigma_hat : T,
    log_likelihood sigma_hat r
    = Ok (mul (neg half)
              (add (add (add (mul (of_Z (Z.of_nat N)) (log (mul (of_Z 2) pi)))
                             (mul (of_Z (Z.of_nat N)) (log sigma_hat)))
                        (np_sum (map (map log) r)))
                   (of_Z (Z.of_nat N)))).
Proof.
  intros He Hr. split.
  - apply sigma_hat_of_Ok; assumption.
  - intros s. unfold log_likelihood. rewrite (wf_length Hr). reflexivity.
Qed.

(** C2.  For innovations [e] and variances [r] of length [N] (with every
    [r[t] > 0], and whatever their values) the evaluator computes
    [σ̂² = (Σ e[t]² / r[t]) / N] and, from a [σ̂²],
    [log L = -0.5 (N log(2π) + N log σ̂² + Σ log r[t] + N)]; and the
    objective returns the negative of that [log L], taken at the [e] and
    [r] of its Kalman recursion and at their [σ̂²].  The sums and the
    operations are those of the code, in its arithmetic. *)
Theorem objective_negative_log_likelihood :
  (forall (N : nat) (e r : matrix T),
      wf N 1 e -> wf N 1 r ->
      sigma_hat_of N e r
      = Ok (div (sum_upto (fun t => div (mul (ent e t 0) (ent e t 0))
                                        (ent r t 0)) N)
                (of_Z (Z.of_nat N))) /\
      forall sigma_hat : T,
        log_likelihood sigma_hat r
        = Ok (mul (neg half)
                  (add (add (add (mul (of_Z (Z.of_nat N))
                                      (log (mul (of_Z 2) pi)))
                                 (mul (of_Z (Z.of_nat N)) (log sigma_hat)))
                            (sum_upto (fun t => log (ent r t 0)) N))
                       (of_Z (Z.of_nat N))))) /\
  (forall (env : globals) (theta : list T),
      3 <= length theta -> g_N env <= length (g_y env) ->
      exists (F G H Q e r : matrix T) (sigma_hat log_lik : T),
        initialize_FGHQ (firstn 3 theta) (firstn 2 (skipn 3 theta))
        = Ok (F, G, H, Q) /\
        kalman_filter 3 (g_N env) F G H (g_y env) = Ok (e, r) /\
        wf (g_N env) 1 e /\ wf (g_N env) 1 r /\
        sigma_hat_of (g_N env) e r = Ok sigma_hat /\
        log_likelihood sigma_hat r = Ok log_lik /\
        obj_func_likelihood env theta = Ok (neg log_lik)).
Proof.
  split.
  - intros N e r He Hr. split.
    + rewrite (sigma_hat_of_Ok He Hr).
      rewrite (np_sum_upto (wf_ew div (wf_square He) Hr)).
      do 2 f_equal. apply sum_upto_ext. intros t Ht.
      assert (H0 : 0 < 1) by lia.
      rewrite (ent_ew div (wf_square He) Hr Ht H0).
      unfold square. rewrite (ent_map_map _ He Ht H0). reflexivity.
    + intros s. unfold log_likelihood. rewrite (wf_length Hr).
      rewrite (np_sum_upto (wf_map_map log Hr)).
      do 4 f_equal. apply sum_upto_ext. intros t Ht.
      apply (ent_map_map log Hr Ht). lia.
  - intros env theta Hth Hy.
    destruct (obj_func_likelihood_unfold env theta Hth Hy)
      as [F [G [H [E [WF [WG [WH [EG [EH [K O]]]]]]]]]].
    cbv zeta in K, O.
    pose proof (wf_filled (g_N env) (spec_e_at 3 F G H (g_y env))) as We.
    pose proof (wf_filled (g_N env) (spec_r_at 3 F G H (g_y env))) as Wr.
    exists F, G, H, (eye 3).
    exists (filled (g_N env) (spec_e_at 3 F G H (g_y env)) (g_N env)).
    exists (filled (g_N env) (spec_r_at 3 F G H (g_y env)) (g_N env)).
    do 2 eexists.
    split; [exact E|]. split; [exact K|].
    split; [exact We|]. split; [exact Wr|].
    split; [apply (sigma_hat_of_Ok We Wr)|].
    split; [unfold log_likelihood; reflexivity|].
    rewrite O, (sigma_hat_of_Ok We Wr). reflexivity.
Qed.

End EvaluatorClaims.

Section RealClaims.
Local Open Scope R_scope.

(** C10.  With at least one observation read, the first innovation is the
    first observation, [e[0] = y[0]]: the state starts at the zero vector,
    so the first prediction [H F x] is 0. *)
Theorem first_innovation_is_first_observation (a b y : list R) (N : nat) :
  (1 <= N)%nat -> (N <= length y)%nat ->
  let k := Nat.max (length a) (length b + 1) in
  exists F G H Q e r : Rmatrix,
    initialize_FGHQ a b = Ok (F, G, H, Q) /\
    kalman_filter k N F G H y = Ok (e, r) /\
    ent (mmul H (mmul F (zeros k 1))) 0 0 = 0 /\
    nth 0 e [] = [nth 0 y 0].
Proof.
  intros HN Hy k.
  destruct (builder_model a b) as [F [G [H [E [Hk [WF [WG [WH _]]]]]]]].
  fold k in E, Hk, WF, WG, WH.
  exists F, G, H, (eye k).
  exists (filled N (spec_e_at k F G H y) N), (filled N (spec_r_at k F G H y) N).
  split; [exact E|].
  split; [apply kalman_filter_spec; assumption|].
  split; [apply (first_prediction_zero Hk WF WH)|].
  rewrite nth_filled by lia. f_equal.
  unfold spec_e_at, spec_e. cbn [spec_state fst].
  rewrite (first_prediction_zero Hk WF WH). real_ops. ring.
Qed.

End RealClaims.

(** ** The claims on concrete real inputs *)

Section RealExamples.
Local Open Scope R_scope.

(** C5: a series of identical observations (zeros) drives every innovation
    to exactly 0 and the profiled variance to 0; [log_likelihood] is then
    called on [sigma_hat = 0] and returns a value, and so does the
    objective: no error is raised. *)
Lemma objective_on_zero_series :
  let env := mk_globals 3 [0; 0; 0] in
  let theta := [1 / 2; - 3 / 10; 1 / 5; 2 / 5; - 1 / 5] in
  exists (F G H Q e r : Rmatrix) (v : R),
    initialize_FGHQ (firstn 3 theta) (firstn 2 (skipn 3 theta))
    = Ok (F, G, H, Q) /\
    kalman_filter 3 3 F G H [0; 0; 0] = Ok (e, r) /\
    (forall t, (t < 3)%nat -> ent e t 0 = 0) /\
    sigma_hat_of 3 e r = Ok 0 /\
    log_likelihood 0 r = Ok v /\
    obj_func_likelihood env theta = Ok (- v).
Proof.
  intros env theta.
  assert (Hth : (3 <= length theta)%nat) by (simpl; lia).
  assert (Hy : (g_N env <= length (g_y env))%nat) by (simpl; lia).
  destruct (obj_func_likelihood_unfold (tr := R_Transc) env theta Hth Hy)
    as [F [G [H [E [WF [WG [WH [_ [_ [K O]]]]]]]]]].
  cbv zeta in K, O. cbn [g_N g_y env] in K, O.
  set (e := filled 3 (spec_e_at 3 F G H [0; 0; 0]) 3) in *.
  set (r := filled 3 (spec_r_at 3 F G H [0; 0; 0]) 3) in *.
  assert (We : wf 3 1 e) by apply wf_filled.
  assert (Wr : wf 3 1 r) by apply wf_filled.
  assert (He : forall t, (t < 3)%nat -> ent e t 0 = 0).
  { intros t Ht. unfold e. rewrite (ent_filled _ Ht).
    apply (@zero_series_innovations 3 F G H [0; 0; 0]); auto.
    intros [|[|[|[|i]]]]; reflexivity. }
  assert (Hs : sigma_hat_of 3 e r = Ok 0).
  { rewrite (sigma_hat_of_Ok We Wr), (sigma_hat_value We Wr). f_equal.
    unfold sigma2_spec.
    rewrite (Rsum_ext _ (fun _ => 0)); [rewrite Rsum_zero; ring|].
    intros t Ht. rewrite (He t Ht). unfold Rdiv. simpl. ring. }
  exists F, G, H, (eye 3), e, r. eexists.
  split; [exact E|]. split; [exact K|]. split; [exact He|].
  split; [exact Hs|]. split.
  - unfold log_likelihood. reflexivity.
  - rewrite O, Hs. reflexivity.
Qed.

(** Where the objective does raise: with two coefficients the builder
    returns [2 × 2] arrays while the objective keeps [k = 3], and [F @ x]
    fails on the shapes. *)
Lemma obj_func_likelihood_short_theta :
  obj_func_likelihood (mk_globals 1 [1]) [1; 2] = Raise ValueError.
Proof. reflexivity. Qed.

Lemma objective_negative_log_likelihood_witness :
  (exists s : R,
      sigma_hat_of 1 [[1]] [[2]] = Ok s /\
      exists v : R, log_likelihood s [[2]] = Ok v) /\
  exists v : R, obj_func_likelihood (mk_globals 1 [1]) [1; 0; 0] = Ok v.
Proof.
  assert (W1 : wf 1 1 [[1]]) by (split; [reflexivity | repeat constructor]).
  assert (W2 : wf 1 1 [[2]]) by (split; [reflexivity | repeat constructor]).
  split.
  - destruct (proj1 (@objective_negative_log_likelihood R R_Arith R_Transc)
                1%nat [[1]] [[2]] W1 W2) as [Hs Hl].
    eexists. split; [exact Hs|]. eexists. apply Hl.
  - destruct (proj2 (@objective_negative_log_likelihood R R_Arith R_Transc)
                (mk_globals 1 [1]) [1; 0; 0])
      as [F [G [H [Q [e [r [s [v [_ [_ [_ [_ [_ [_ O]]]]]]]]]]]]]];
      [simpl; lia | simpl; lia |].
    exists (- v). exact O.
Defined.

Lemma likelihood_evaluator_total_witness :
  wf 1 1 [[0]] /\ wf 1 1 [[1]] /\
  exists s : R,
    sigma_hat_of 1 [[0]] [[1]] = Ok s /\
    exists v : R, log_likelihood s [[1]] = Ok v.
Proof.
  assert (W0 : wf 1 1 [[0]]) by (split; [reflexivity | repeat constructor]).
  assert (W1 : wf 1 1 [[1]]) by (split; [reflexivity | repeat constructor]).
  split; [exact W0|]. split; [exact W1|].
  destruct (@likelihood_evaluator_total R R_Arith R_Transc 1 [[0]] [[1]] W0 W1)
    as [Hs Hl].
  eexists. split; [exact Hs|]. eexists. apply Hl.
Defined.

Lemma first_innovation_is_first_observation_witness :
  exists F G H Q e r : Rmatrix,
    initialize_FGHQ [1 / 2] [] = Ok (F, G, H, Q) /\
    kalman_filter 1 2 F G H [1; 1 / 2] = Ok (e, r) /\
    ent (mmul H (mmul F (zeros 1 1))) 0 0 = 0 /\
    nth 0 e [] = [1].
Proof.
  apply (@first_innovation_is_first_observation [1 / 2] [] [1; 1 / 2] 2).
  - lia.
  - simpl. lia.
Defined.

End RealExamples.

(** * Further properties of the code *)

(** ** When the objective raises *)

Section ErrorPaths.
Context {T : Type} {ar : Arith T} {tr : Transc T}.

Lemma getitem_out_of_range {A : Type} (l : list A) (i : nat) :
  length l <= i -> getitem l i = Raise IndexError.
Proof.
  intros Hi. unfold getitem.
  destruct (nth_error l i) eqn:E; [|reflexivity].
  assert (i < length l) by (apply nth_error_Some; congruence). lia.
Qed.

Lemma matmul_shape_mismatch (n m n' p : nat) (A B : matrix T) :
  wf n m A -> wf n' p B -> 1 <= n -> m <> n' -> matmul A B = Raise ValueError.
Proof.
  intros HA HB Hn Hne. unfold matmul, nrows.
  rewrite (ncols_wf HA Hn), (wf_length HB).
  apply Nat.eqb_neq in Hne. rewrite Hne. reflexivity.
Qed.

Lemma for_each_Raise {S : Type} (body : S -> nat -> result S)
      (t : nat) (ts : list nat) (s : S) (err : exn) :
  body s t = Raise err -> for_each body (t :: ts) s = Raise err.
Proof. intros Hb. simpl. rewrite Hb. reflexivity. Qed.

(** A transition matrix of another dimension than [k] stops the first pass
    at [F @ x]. *)
Lemma kalman_filter_wrong_dimension (k k' N : nat) (F G H : matrix T)
      (y : list T) :
  1 <= k' -> wf k' k' F -> k' <> k -> 1 <= N ->
  kalman_filter k N F G H y = Raise ValueError.
Proof.
  intros Hk' HF Hne HN. unfold kalman_filter, kalman_run.
  destruct N as [|N]; [lia|]. cbn [seq].
  rewrite for_each_Raise with (err := ValueError); [reflexivity|].
  unfold kalman_body, kalman_predict, kalman_init. cbn [st_x st_V].
  rewrite (matmul_shape_mismatch HF (wf_zeros k 1) Hk' Hne). reflexivity.
Qed.

(** With fewer observations than [N] the pass [t = len(y)] stops at [y[t]]. *)
Lemma kalman_filter_short_y (k N : nat) (F G H : matrix T) (y : list T) :
  1 <= k -> wf k k F -> wf k 1 G -> wf 1 k H -> length y < N ->
  kalman_filter k N F G H y = Raise IndexError.
Proof.
  intros Hk HF HG HH Hy. unfold kalman_filter.
  assert (Hrun : kalman_run k N F G H y N = Raise IndexError).
  { unfold kalman_run.
    replace N with (length y + S (N - S (length y))) at 1 by lia.
    rewrite seq_app, for_each_app. cbn [Nat.add].
    pose proof (kalman_run_spec y Hk HF HG HH (N := N) (t := length y)) as Hpre.
    unfold kalman_run in Hpre. rewrite Hpre by lia. cbn [bind seq].
    apply for_each_Raise.
    destruct (wf_spec_state y Hk HF HG HH (length y)) as [Wx WV].
    unfold kalman_body. cbn [st_x st_V st_e st_r].
    rewrite (kalman_predict_Ok Hk HF HG Wx WV). cbn [bind].
    rewrite (getitem_out_of_range y (le_n _)). reflexivity. }
  rewrite Hrun. reflexivity.
Qed.

Lemma short_theta_slices (theta : list T) :
  length theta < 3 ->
  firstn 3 theta = theta /\ firstn 2 (skipn 3 theta) = [].
Proof.
  intros Hth. split.
  - apply firstn_all2. lia.
  - rewrite skipn_all2 by lia. reflexivity.
Qed.

Lemma obj_func_likelihood_ValueError (env : globals) (theta : list T) :
  length theta < 3 -> 1 <= g_N env ->
  obj_func_likelihood env theta = Raise ValueError.
Proof.
  intros Hth HN.
  destruct (short_theta_slices theta Hth) as [Ha Hb].
  unfold obj_func_likelihood, obj_func_likelihood_pq. rewrite Ha, Hb.
  destruct (initialize_FGHQ_entries theta [])
    as [F [G [H [E [WF _]]]]].
  rewrite E. cbn [bind Nat.max Nat.add length] in *.
  rewrite (kalman_filter_wrong_dimension (k := 3) G H (g_y env)
             (k' := Nat.max (length theta) 1) (F := F)); auto; lia.
Qed.

Lemma obj_func_likelihood_IndexError (env : globals) (theta : list T) :
  3 <= length theta -> length (g_y env) < g_N env ->
  obj_func_likelihood env theta = Raise IndexError.
Proof.
  intros Hth Hy.
  destruct (initialize_FGHQ_entries (firstn 3 theta) (firstn 2 (skipn 3 theta)))
    as [F [G [H [E [WF [WG [WH _]]]]]]].
  assert (Hla : length (firstn 3 theta) = 3) by (rewrite length_firstn; lia).
  assert (Hlb : length (firstn 2 (skipn 3 theta)) <= 2)
    by (rewrite length_firstn; lia).
  assert (Hk : Nat.max (length (firstn 3 theta))
                       (length (firstn 2 (skipn 3 theta)) + 1) = 3) by lia.
  rewrite Hk in E, WF, WG, WH.
  unfold obj_func_likelihood, obj_func_likelihood_pq.
  rewrite E. cbn [bind Nat.max Nat.add].
  rewrite (kalman_filter_short_y (k := 3) (N := g_N env)); auto.
Qed.

Lemma obj_func_likelihood_Ok (env : globals) (theta : list T) :
  3 <= length theta -> g_N env <= length (g_y env) ->
  exists v, obj_func_likelihood env theta = Ok v.
Proof.
  intros Hth Hy.
  destruct (obj_func_likelihood_unfold env theta Hth Hy)
    as [F [G [H [_ [_ [_ [_ [_ [_ [_ O]]]]]]]]]].
  cbv zeta in O. rewrite O.
  rewrite (sigma_hat_of_Ok (wf_filled _ _) (wf_filled _ _)).
  eexists. reflexivity.
Qed.

End ErrorPaths.

Section ReadSet.
Context {T : Type} {ar : Arith T} {tr : Transc T}.

(** The objective reads only the first five entries of [theta] and the
    first [N] observations: two evaluations that agree on these and on
    [N] return identical results, whatever else [theta] and [y] hold. *)
Theorem obj_func_likelihood_reads_prefixes
        (env env' : globals) (theta theta' : list T) :
  g_N env = g_N env' ->
  firstn (g_N env) (g_y env) = firstn (g_N env') (g_y env') ->
  firstn 5 theta = firstn 5 theta' ->
  obj_func_likelihood env theta = obj_func_likelihood env' theta'.
Proof.
  intros HN Hy Hth.
  unfold obj_func_likelihood, obj_func_likelihood_pq.
  assert (Ha : firstn 3 theta = firstn 3 theta').
  { replace (firstn 3 theta) with (firstn 3 (firstn 5 theta))
      by (rewrite firstn_firstn; reflexivity).
    rewrite Hth, firstn_firstn. reflexivity. }
  assert (Hb : firstn 2 (skipn 3 theta) = firstn 2 (skipn 3 theta')).
  { rewrite !firstn_skipn_comm. cbn [Nat.add]. rewrite Hth. reflexivity. }
  rewrite Ha, Hb.
  destruct (initialize_FGHQ (firstn 3 theta') (firstn 2 (skipn 3 theta')))
    as [[[[F G] H] Q]|err]; [|reflexivity].
  cbn [bind]. unfold kalman_filter.
  rewrite <- HN in *.
  rewrite (kalman_run_reads_prefix _ F G H (g_y env) (g_y env') Hy (le_n _)).
  reflexivity.
Qed.

End ReadSet.

Section OutcomeProperties.
Context {T : Type} {ar : Arith T} {tr : Transc T}.

(** The three outcomes of an evaluation.  The objective returns a value
    exactly when no pass is made ([N = 0]) or [theta] has at least three
    entries and [y] at least [N]; it raises [ValueError] (from [F @ x])
    exactly when a pass is made with fewer than three coefficients, and
    [IndexError] (from [y[t]]) exactly when [theta] has three entries but
    [y] has fewer than [N]. *)
Theorem obj_func_likelihood_outcome (env : globals) (theta : list T) :
  ((exists v, obj_func_likelihood env theta = Ok v) <->
   g_N env = 0 \/ (3 <= length theta /\ g_N env <= length (g_y env))) /\
  (obj_func_likelihood env theta = Raise ValueError <->
   1 <= g_N env /\ length theta < 3) /\
  (obj_func_likelihood env theta = Raise IndexError <->
   3 <= length theta /\ length (g_y env) < g_N env).
Proof.
  assert (Cases : g_N env = 0 \/
                  (3 <= length theta /\ g_N env <= length (g_y env)) \/
                  (1 <= g_N env /\ length theta < 3) \/
                  (3 <= length theta /\ length (g_y env) < g_N env)) by lia.
  assert (Hzero : g_N env = 0 -> exists v, obj_func_likelihood env theta = Ok v).
  { intros HN.
    destruct (initialize_FGHQ_entries (firstn 3 theta)
                                      (firstn 2 (skipn 3 theta)))
      as [F [G [H [E _]]]].
    unfold obj_func_likelihood, obj_func_likelihood_pq.
    rewrite E, HN. eexists. reflexivity. }
  destruct Cases as [HN|[[Hth Hy]|[[HN Hth]|[Hth Hy]]]].
  - destruct (Hzero HN) as [v Hv]. rewrite Hv.
    repeat split; intros; try discriminate; try lia; eauto.
  - destruct (obj_func_likelihood_Ok env theta Hth Hy) as [v Hv]. rewrite Hv.
    repeat split; intros; try discriminate; try lia; eauto.
  - rewrite (obj_func_likelihood_ValueError env theta Hth HN).
    repeat split; intros; try discriminate; try lia; auto;
      repeat match goal with
             | X : exists _, _ |- _ => destruct X
             | X : _ \/ _ |- _ => destruct X
             end; try discriminate; lia.
  - rewrite (obj_func_likelihood_IndexError env theta Hth Hy).
    repeat split; intros; try discriminate; try lia; auto;
      repeat match goal with
             | X : exists _, _ |- _ => destruct X
             | X : _ \/ _ |- _ => destruct X
             end; try discriminate; lia.
Qed.

(** With [N = 0] the loop makes no pass and nothing is checked: whatever
    [theta] and [y], the objective divides a sum of no terms by [N = 0]
    and returns the log-likelihood formula of that quotient. *)
Theorem obj_func_likelihood_without_observations
        (env : globals) (theta : list T) :
  g_N env = 0 ->
  obj_func_likelihood env theta
  = Ok (neg (mul (neg half)
                 (add (add (add (mul (of_Z 0) (log (mul (of_Z 2) pi)))
                                (mul (of_Z 0) (log (div zero (of_Z 0)))))
                           zero)
                      (of_Z 0)))).
Proof.
  intros HN.
  destruct (initialize_FGHQ_entries (firstn 3 theta) (firstn 2 (skipn 3 theta)))
    as [F [G [H [E _]]]].
  unfold obj_func_likelihood, obj_func_likelihood_pq.
  rewrite E, HN. reflexivity.
Qed.

End OutcomeProperties.

(** ** What the loop keeps and what it reads *)

Section LoopProperties.
Context {T : Type} {ar : Arith T}.
Variables (k N : nat) (F G H : matrix T).
Hypothesis Hk : 1 <= k.
Hypothesis HF : wf k k F.
Hypothesis HG : wf k 1 G.
Hypothesis HH : wf 1 k H.

Lemma wf_filled_partial (f : nat -> T) (t : nat) :
  t <= N -> wf N 1 (filled N f t).
Proof.
  intros Ht. unfold filled. split.
  - rewrite length_app, length_map, length_seq.
    rewrite (wf_length (wf_zeros (N - t) 1)). lia.
  - apply Forall_app. split.
    + apply Forall_forall. intros row Hrow.
      apply in_map_iff in Hrow. destruct Hrow as [i [<- _]]. reflexivity.
    + apply (wf_zeros (N - t) 1).
Qed.

(** The covariance part of the state does not depend on the observations. *)
Lemma snd_spec_state_indep (y y' : list T) (t : nat) :
  snd (spec_state k F G H y t) = snd (spec_state k F G H y' t).
Proof.
  induction t as [|t IH]; cbn [spec_state]; [reflexivity|].
  destruct (spec_state k F G H y t) as [x V].
  destruct (spec_state k F G H y' t) as [x' V'].
  cbn [snd] in IH. subst V'. reflexivity.
Qed.

(** The state after [t] passes depends on the first [t] observations. *)
Lemma spec_state_prefix (y y' : list T) (t : nat) :
  (forall i, i < t -> nth i y zero = nth i y' zero) ->
  spec_state k F G H y t = spec_state k F G H y' t.
Proof.
  induction t as [|t IH]; intros Hy; cbn [spec_state]; [reflexivity|].
  rewrite IH by (intros i Hi; apply Hy; lia).
  rewrite (Hy t) by lia. reflexivity.
Qed.

(** Shapes are an invariant of the loop: after any number of passes [x] is
    [(k, 1)], [V] is [(k, k)] and [e], [r] are [(N, 1)]. *)
Theorem kalman_loop_keeps_shapes (y : list T) (t : nat) :
  t <= N -> t <= length y ->
  exists s, kalman_run k N F G H y t = Ok s /\
       wf k 1 (st_x s) /\ wf k k (st_V s) /\
       wf N 1 (st_e s) /\ wf N 1 (st_r s).
Proof.
  intros HtN Hty. eexists.
  split; [apply (kalman_run_spec y Hk HF HG HH (N := N) (t := t)); lia|].
  cbn [st_x st_V st_e st_r].
  destruct (wf_spec_state y Hk HF HG HH t) as [Wx WV].
  split; [exact Wx|]. split; [exact WV|].
  split; apply (wf_filled_partial _ HtN).
Qed.

(** The innovation variances [r] (and the covariances [V]) do not depend
    on the observations: two series give the same [r]. *)
Theorem innovation_variances_ignore_observations (y y' : list T) :
  N <= length y -> N <= length y' ->
  exists e e' r : matrix T,
    kalman_filter k N F G H y = Ok (e, r) /\
    kalman_filter k N F G H y' = Ok (e', r).
Proof.
  intros Hy Hy'.
  exists (filled N (spec_e_at k F G H y) N).
  exists (filled N (spec_e_at k F G H y') N).
  exists (filled N (spec_r_at k F G H y) N).
  split; [apply kalman_filter_spec; assumption|].
  rewrite (@kalman_filter_spec T ar k N F G H y' Hk HF HG HH Hy').
  do 2 f_equal.
  rewrite !filled_all. apply map_ext. intros t.
  unfold spec_r_at. rewrite (snd_spec_state_indep y y' t). reflexivity.
Qed.

(** The filter is causal: the innovation [e[t]] depends on the
    observations [y[0..t]] only. *)
Theorem innovations_are_causal (y y' : list T) (t : nat) :
  t < N -> N <= length y -> N <= length y' ->
  firstn (S t) y = firstn (S t) y' ->
  exists e r e' r' : matrix T,
    kalman_filter k N F G H y = Ok (e, r) /\
    kalman_filter k N F G H y' = Ok (e', r') /\
    nth t e [] = nth t e' [].
Proof.
  intros Ht Hy Hy' Hpre.
  assert (Hnth : forall i, i < S t -> nth i y zero = nth i y' zero).
  { intros i Hi.
    rewrite <- (firstn_skipn (S t) y), <- (firstn_skipn (S t) y').
    rewrite !app_nth1 by (rewrite length_firstn; lia).
    rewrite Hpre. reflexivity. }
  do 4 eexists.
  split; [apply kalman_filter_spec; assumption|].
  split; [apply kalman_filter_spec; assumption|].
  rewrite !nth_filled by exact Ht. f_equal.
  unfold spec_e_at.
  rewrite (spec_state_prefix y y' (t := t)) by (intros i Hi; apply Hnth; lia).
  rewrite (Hnth t) by lia. reflexivity.
Qed.

End LoopProperties.

(** ** The model of the builder in the recursion, over the real numbers *)

Section BuilderInRecursion.
Local Open Scope R_scope.
Variables (a b : list R).
Let p := length a.
Let k := Nat.max (length a) (length b + 1).
Variables (F G H : Rmatrix).
Hypothesis HF : wf k k F.
Hypothesis HG : wf k 1 G.
Hypothesis HH : wf 1 k H.
Hypothesis EF : forall i j, ent F i j =
  if (i <? k - 1) && (j =? i + 1) then one
  else if (i <? p) && (j =? 0) then nth i a zero else zero.
Hypothesis EG0 : ent G 0 0 = one.
Hypothesis EH : forall i j,
    ent H i j = if (i =? 0) && (j =? 0) then one else zero.

Lemma k_positive : (1 <= k)%nat.
Proof. unfold k. lia. Qed.

Lemma Rsum_single_out (g : nat -> R) (i n : nat) :
  (n <= i)%nat -> Rsum (fun j => if i =? j then g j else 0) n = 0.
Proof.
  intros Hi. rewrite (Rsum_ext _ (fun _ => 0)); [apply Rsum_zero|].
  intros j Hj. destruct (Nat.eqb_spec i j); [lia|reflexivity].
Qed.

Lemma H_row (l : nat) : ent H 0 l = if 0 =? l then 1 else 0.
Proof. rewrite EH. destruct l; reflexivity. Qed.

(** [H] selects the first entry of a column. *)
Lemma H_selects (x : Rmatrix) :
  wf k 1 x -> ent (mmul H x) 0 0 = ent x 0 0.
Proof.
  intros Hx. assert (H0 : (0 < 1)%nat) by lia.
  rewrite (ent_mmul HH Hx k_positive H0 H0).
  rewrite (Rsum_ext _ (fun l => if 0 =? l then ent x l 0 else 0)).
  - apply (Rsum_single (fun l => ent x l 0) k_positive).
  - intros l _. rewrite H_row. destruct (0 =? l)%nat; ring.
Qed.

Lemma bilf_H (P : nat -> nat -> R) (u w : nat -> R) :
  bilf k k P u (ent H 0%nat) = bilf k k P u (fun l => if 0 =? l then 1 else 0)
  /\ bilf k k P (ent H 0%nat) w = bilf k k P (fun l => if 0 =? l then 1 else 0) w.
Proof.
  split; apply bilf_ext; try reflexivity; intros l _; apply H_row.
Qed.

(** [H P Hᵗ] is the top-left entry of [P]. *)
Lemma H_variance (P : Rmatrix) : wf k k P -> spec_r H P = ent P 0 0.
Proof.
  intros HP. rewrite (spec_r_quad k_positive HH HP), quad_bilf.
  rewrite (proj1 (bilf_H (ent P) (ent H 0%nat) (ent H 0%nat))).
  rewrite (proj2 (bilf_H (ent P) (ent H 0%nat)
                         (fun l => if 0 =? l then 1 else 0))).
  apply bilf_unit; apply k_positive.
Qed.

(** [F x] shifts the state and feeds its first entry back through the AR
    coefficients. *)
Lemma F_shifts (x : Rmatrix) (i : nat) :
  wf k 1 x -> (i < k)%nat ->
  ent (mmul F x) i 0 = nth i a 0 * ent x 0 0 + ent x (i + 1) 0.
Proof.
  intros Hx Hi. assert (H0 : (0 < 1)%nat) by lia.
  rewrite (ent_mmul HF Hx k_positive Hi H0).
  rewrite (Rsum_ext _ (fun l =>
             (if 0 =? l then nth i a 0 * ent x l 0 else 0)
             + (if i + 1 =? l then ent x l 0 else 0))).
  - rewrite Rsum_plus.
    rewrite (Rsum_single (fun l => nth i a 0 * ent x l 0) k_positive).
    destruct (Nat.lt_ge_cases (i + 1) k) as [Hlt|Hge].
    + rewrite (Rsum_single (fun l => ent x l 0) Hlt). reflexivity.
    + rewrite (Rsum_single_out (fun l => ent x l 0) Hge).
      assert (Hz : ent x (i + 1) 0 = 0).
      { unfold ent.
        assert (Hnil : nth (i + 1) x [] = [])
          by (apply nth_overflow; rewrite (wf_length Hx); exact Hge).
        rewrite Hnil. reflexivity. }
      rewrite Hz. reflexivity.
  - intros l Hl. rewrite EF. rewrite (Nat.eqb_sym l (i + 1)).
    destruct (Nat.eqb_spec (i + 1) l) as [E|E].
    + replace (i <? k - 1)%nat with true by (symmetry; apply Nat.ltb_lt; lia).
      replace (0 =? l)%nat with false by (symmetry; apply Nat.eqb_neq; lia).
      cbn [andb]. real_ops. ring.
    + rewrite andb_false_r. rewrite (Nat.eqb_sym l 0).
      destruct (Nat.eqb_spec 0 l) as [E0|E0].
      * rewrite andb_true_r.
        destruct (Nat.ltb_spec i p) as [Hp|Hp].
        { real_ops. ring. }
        { rewrite (nth_overflow a) by (fold p; lia). real_ops. ring. }
      * rewrite andb_false_r. real_ops. ring.
Qed.

(** The covariance update written out: a Schur complement on the first
    row and column. *)
Lemma updated_entries (P : Rmatrix) (i j : nat) :
  wf k k P -> (i < k)%nat -> (j < k)%nat ->
  ent (updated k H P (spec_r H P)) i j
  = ent P i j - ent P i 0 / ent P 0 0 * ent P 0 j.
Proof.
  intros HP Hi Hj.
  rewrite <- (bilf_unit (ent (updated k H P (spec_r H P))) Hi Hj).
  rewrite (bilf_updated k_positive HH (spec_r H P) _ _ HP).
  rewrite (proj1 (bilf_H (ent P) (fun i' => if i =? i' then 1 else 0)
                         (ent H 0%nat))).
  rewrite (proj2 (bilf_H (ent P) (ent H 0%nat)
                         (fun j' => if j =? j' then 1 else 0))).
  rewrite !bilf_unit by (try assumption; apply k_positive).
  rewrite (H_variance HP). reflexivity.
Qed.

(** The first entry of the gain is 1 when the variance is positive. *)
Lemma gain_first_entry (P : Rmatrix) :
  wf k k P -> 0 < ent P 0 0 -> ent (spec_K H P (spec_r H P)) 0 0 = 1.
Proof.
  intros HP Hpos.
  rewrite (ent_spec_K k_positive HH (spec_r H P) HP k_positive).
  rewrite (H_variance HP). unfold matvec.
  rewrite (Rsum_ext _ (fun l => if 0 =? l then ent P 0 l else 0)).
  - rewrite (Rsum_single (fun l => ent P 0 l) k_positive). field. lra.
  - intros l _. rewrite H_row. destruct (0 =? l)%nat; ring.
Qed.

End BuilderInRecursion.

Section RecursionProperties.
Local Open Scope R_scope.

(** The arrays of the builder with everything the properties below use. *)
Lemma builder_facts (a b : list R) :
  let k := Nat.max (length a) (length b + 1) in
  exists F G H : Rmatrix,
    initialize_FGHQ a b = Ok (F, G, H, eye k) /\
    (1 <= k)%nat /\ wf k k F /\ wf k 1 G /\ wf 1 k H /\
    (forall i j, ent F i j =
            if (i <? k - 1) && (j =? i + 1) then one
            else if (i <? length a) && (j =? 0) then nth i a zero else zero) /\
    (forall i j, ent H i j = if (i =? 0) && (j =? 0) then one else zero) /\
    vecmat k (ent H 0%nat) (ent G) 0%nat = 1.
Proof.
  intros k.
  destruct (initialize_FGHQ_entries a b)
    as [F [G [H [E [WF [WG [WH [EF [EG EH]]]]]]]]].
  fold k in E, WF, WG, WH, EF.
  assert (Hk : (1 <= k)%nat) by (unfold k; lia).
  exists F, G, H. repeat (split; [assumption|]).
  apply (builder_HG G H Hk EH). rewrite EG. reflexivity.
Qed.

(** How the builder's arrays act in a pass: the prediction is
    [x_pred[i] = a[i] x[0] + x[i+1]] (with [a[i] = 0] beyond [p] and
    [x[k] = 0]), the innovation is [e[t] = y[t] - x_pred[0]] and its variance
    is the top-left entry [V_pred[0,0]]. *)
Theorem pass_with_builder_arrays (a b y : list R) (N t : nat) :
  (t < N)%nat -> (N <= length y)%nat ->
  let k := Nat.max (length a) (length b + 1) in
  exists (F G H Q e r : Rmatrix) (s : fstate) (x_predict V_predict : Rmatrix),
    initialize_FGHQ a b = Ok (F, G, H, Q) /\
    kalman_filter k N F G H y = Ok (e, r) /\
    kalman_run k N F G H y t = Ok s /\
    kalman_predict F G (st_x s) (st_V s) = Ok (x_predict, V_predict) /\
    (forall i, (i < k)%nat ->
          ent x_predict i 0
          = nth i a 0 * ent (st_x s) 0 0 + ent (st_x s) (i + 1) 0) /\
    ent e t 0 = nth t y 0 - ent x_predict 0 0 /\
    ent r t 0 = ent V_predict 0 0.
Proof.
  intros Ht Hy k.
  destruct (builder_facts a b) as [F [G [H [E [Hk [WF [WG [WH [EF [EH _]]]]]]]]]].
  fold k in E, Hk, WF, WG, WH, EF.
  destruct (wf_spec_state y Hk WF WG WH t) as [Wx WV].
  exists F, G, H, (eye k).
  exists (filled N (spec_e_at k F G H y) N), (filled N (spec_r_at k F G H y) N).
  do 3 eexists.
  split; [exact E|].
  split; [apply kalman_filter_spec; assumption|].
  split; [apply (kalman_run_spec y Hk WF WG WH (N := N) (t := t)); lia|].
  cbn [st_x st_V].
  split; [apply (kalman_predict_Ok Hk WF WG Wx WV)|].
  split; [|split].
  - intros i Hi. apply (F_shifts a b WF EF Wx Hi).
  - rewrite (ent_filled _ Ht). unfold spec_e_at, spec_e.
    rewrite (H_selects a b WH EH (wf_spec_x_pred Hk WF Wx)).
    reflexivity.
  - rewrite (ent_filled _ Ht). unfold spec_r_at.
    apply (H_variance a b WH EH (wf_spec_V_pred Hk WF WG WV)).
Qed.

End RecursionProperties.

Section VarianceProperties.
Local Open Scope R_scope.

Lemma quad_initial (k : nat) (w : nat -> R) :
  quad k (scale (eye k) (of_Z 100)) w = 100 * Rsum (fun i => w i * w i) k.
Proof.
  unfold quad. rewrite <- Rsum_mult_l. apply Rsum_ext. intros i Hi.
  rewrite (Rsum_ext _ (fun j => if i =? j then w i * 100 * w j else 0)).
  - rewrite (Rsum_single (fun j => w i * 100 * w j) Hi). ring.
  - intros j Hj. unfold scale.
    rewrite (ent_map_map _ (wf_eye k) Hi Hj), (ent_eye Hi Hj). real_ops.
    destruct (i =? j)%nat; ring.
Qed.

Lemma Rsum_nonneg_zero (f : nat -> R) (n : nat) :
  (forall i, (i < n)%nat -> 0 <= f i) -> Rsum f n = 0 ->
  forall i, (i < n)%nat -> f i = 0.
Proof.
  induction n as [|n IH]; intros Hf Hsum i Hi; [lia|]. simpl in Hsum.
  assert (H1 : 0 <= Rsum f n) by (apply Rsum_nonneg; intros j Hj; apply Hf; lia).
  assert (H2 : 0 <= f n) by (apply Hf; lia).
  destruct (Nat.eq_dec i n) as [->|Hne]; [lra|].
  apply IH; [intros j Hj; apply Hf; lia | lra | lia].
Qed.

(** The first innovation variance in closed form: from [V = 100 I],
    [r[0] = 100 a[0]² + 100 + 1] when [k >= 2], and [100 a[0]² + 1] when
    [k = 1] (with [a[0] = 0] if there is no AR coefficient). *)
Theorem first_innovation_variance (a b y : list R) (N : nat) :
  (1 <= N)%nat -> (N <= length y)%nat ->
  let k := Nat.max (length a) (length b + 1) in
  exists F G H Q e r : Rmatrix,
    initialize_FGHQ a b = Ok (F, G, H, Q) /\
    kalman_filter k N F G H y = Ok (e, r) /\
    ent r 0 0 = 100 * (nth 0 a 0 * nth 0 a 0)
                + (if 2 <=? k then 100 else 0) + 1.
Proof.
  intros HN Hy k.
  destruct (builder_facts a b)
    as [F [G [H [E [Hk [WF [WG [WH [EF [EH HG1]]]]]]]]]].
  fold k in E, Hk, WF, WG, WH, EF, HG1.
  exists F, G, H, (eye k).
  exists (filled N (spec_e_at k F G H y) N), (filled N (spec_r_at k F G H y) N).
  split; [exact E|].
  split; [apply kalman_filter_spec; assumption|].
  rewrite ent_filled by lia. unfold spec_r_at. cbn [spec_state snd].
  assert (WV0 : wf k k (scale (eye k) (IZR 100)))
    by apply (wf_scale (T := R)), wf_eye.
  rewrite (spec_r_quad Hk WH (wf_spec_V_pred Hk WF WG WV0)).
  rewrite (quad_V_pred Hk WF WG _ WV0), HG1, quad_initial.
  rewrite (Rsum_ext _ (fun i =>
             (if 0 =? i then nth 0 a 0 * nth 0 a 0 else 0)
             + (if 1 =? i then 1 else 0))).
  - rewrite Rsum_plus.
    rewrite (Rsum_single (fun _ => nth 0 a 0 * nth 0 a 0) Hk).
    destruct (Nat.leb_spec 2 k) as [H2|H2].
    + rewrite (Rsum_single (fun _ => 1) H2). ring.
    + rewrite (Rsum_ext (fun i => if 1 =? i then 1 else 0) (fun _ => 0)).
      * rewrite Rsum_zero. ring.
      * intros i Hi. destruct (Nat.eqb_spec 1 i); [lia|reflexivity].
  - intros i Hi.
    assert (Hw : vecmat k (ent H 0%nat) (ent F) i = ent F 0 i).
    { unfold vecmat.
      rewrite (Rsum_ext _ (fun l => if 0 =? l then ent F l i else 0)).
      - apply (Rsum_single (fun l => ent F l i) Hk).
      - intros l _. rewrite EH. destruct l; real_ops; cbn [Nat.eqb andb]; ring. }
    rewrite Hw, EF. cbn [Nat.add].
    destruct i as [|[|i]]; cbn [Nat.eqb andb].
    + rewrite andb_false_r, andb_true_r.
      destruct (Nat.ltb_spec 0 (length a)) as [Hp|Hp].
      * real_ops. ring.
      * rewrite (nth_overflow a) by lia. real_ops. ring.
    + rewrite andb_true_r.
      replace (0 <? k - 1)%nat with true by (symmetry; apply Nat.ltb_lt; lia).
      real_ops. ring.
    + rewrite !andb_false_r. real_ops. ring.
Qed.

(** The covariance update entry by entry: with [P = V_predict] of the
    pass, the new [V[i,j]] is [P[i,j] - P[i,0] P[0,j] / P[0,0]]. *)
Theorem covariance_update_entries (a b y : list R) (N t : nat) :
  (t < N)%nat -> (N <= length y)%nat ->
  let k := Nat.max (length a) (length b + 1) in
  exists (F G H Q : Rmatrix) (s s' : fstate) (x_predict P : Rmatrix),
    initialize_FGHQ a b = Ok (F, G, H, Q) /\
    kalman_run k N F G H y t = Ok s /\
    kalman_predict F G (st_x s) (st_V s) = Ok (x_predict, P) /\
    kalman_run k N F G H y (S t) = Ok s' /\
    forall i j, (i < k)%nat -> (j < k)%nat ->
           ent (st_V s') i j = ent P i j - ent P i 0 / ent P 0 0 * ent P 0 j.
Proof.
  intros Ht Hy k.
  destruct (builder_facts a b)
    as [F [G [H [E [Hk [WF [WG [WH [EF [EH HG1]]]]]]]]]].
  fold k in E, Hk, WF, WG, WH, EF, HG1.
  destruct (wf_spec_state y Hk WF WG WH t) as [Wx WV].
  exists F, G, H, (eye k). do 4 eexists.
  split; [exact E|].
  split; [apply (kalman_run_spec y Hk WF WG WH (N := N) (t := t)); lia|].
  cbn [st_x st_V].
  split; [apply (kalman_predict_Ok Hk WF WG Wx WV)|].
  split; [apply (kalman_run_spec y Hk WF WG WH (N := N) (t := S t)); lia|].
  intros i j Hi Hj. cbn [st_V spec_state].
  destruct (spec_state k F G H y t) as [x V]. cbn [fst snd] in *.
  rewrite snd_spec_update.
  pose proof (updated_entries a b WH EH (wf_spec_V_pred Hk WF WG WV) Hi Hj) as U.
  fold k in U. exact U.
Qed.

Lemma sigma2_spec_sign (N : nat) (e r : Rmatrix) :
  (forall t, (t < N)%nat -> 0 < ent r t 0) ->
  0 <= sigma2_spec N e r /\
  ((1 <= N)%nat ->
   (sigma2_spec N e r = 0 <-> forall t, (t < N)%nat -> ent e t 0 = 0)).
Proof.
  intros Hpos. unfold sigma2_spec.
  set (f := fun t => ent e t 0 ^ 2 / ent r t 0).
  assert (Hf : forall t, (t < N)%nat -> 0 <= f t).
  { intros t Ht. unfold f, Rdiv. apply Rmult_le_pos.
    - apply pow2_ge_0.
    - apply Rlt_le, Rinv_0_lt_compat, Hpos, Ht. }
  pose proof (@Rsum_nonneg f N Hf) as Hsum.
  destruct N as [|N'].
  - split; [simpl; lra | intros; lia].
  - set (n := S N') in *.
    assert (Hn : 0 < INR n) by (apply lt_0_INR; unfold n; lia).
    assert (Hinv : 0 < 1 / INR n)
      by (unfold Rdiv; rewrite Rmult_1_l; apply Rinv_0_lt_compat, Hn).
    split; [apply Rmult_le_pos; lra|].
    intros _. split.
    + intros Hs t Ht.
      assert (Hz : Rsum f n = 0).
      { destruct (Rmult_integral _ _ Hs) as [Hc|Hc]; [lra|exact Hc]. }
      pose proof (@Rsum_nonneg_zero f n Hf Hz t Ht) as Hft. unfold f in Hft.
      assert (Hsq : ent e t 0 ^ 2 = 0).
      { pose proof (Hpos t Ht) as Hrt.
        replace (ent e t 0 ^ 2) with (ent e t 0 ^ 2 / ent r t 0 * ent r t 0)
          by (field; lra).
        rewrite Hft. ring. }
      simpl in Hsq. rewrite Rmult_1_r in Hsq.
      destruct (Rmult_integral _ _ Hsq); assumption.
    + intros Hall.
      rewrite (Rsum_ext f (fun _ => 0)); [rewrite Rsum_zero; ring|].
      intros t Ht. unfold f. rewrite (Hall t Ht). unfold Rdiv. simpl. ring.
Qed.


End VarianceProperties.

(** ** Rescaling the observations *)

Section Scaling.
Local Open Scope R_scope.
Variables (k : nat) (F G H : Rmatrix).
Hypothesis Hk : (1 <= k)%nat.
Hypothesis HF : wf k k F.
Hypothesis HG : wf k 1 G.
Hypothesis HH : wf 1 k H.
Variables (c : R) (y : list R).







End Scaling.

Section ScalingProperty.
Local Open Scope R_scope.


End ScalingProperty.

Section ExactValues.
Local Open Scope R_scope.

(** In exact arithmetic, for [N >= 1] innovations and variances with every
    [r[t] > 0] and a positive profiled variance, the evaluator returns
    [σ̂² = (1/N) Σ e[t]² / r[t]] and the concentrated log-likelihood
    [-0.5 (N log(2π) + N log σ̂² + Σ log r[t] + N)] of the specification;
    and on a run of the recursion with such [e] and [r] the objective is
    the negative of that log-likelihood. *)
Theorem objective_exact_value :
  (forall (N : nat) (e r : Rmatrix),
      (1 <= N)%nat -> wf N 1 e -> wf N 1 r ->
      (forall t, (t < N)%nat -> 0 < ent r t 0) ->
      0 < sigma2_spec N e r ->
      sigma_hat_of N e r = Ok (sigma2_spec N e r) /\
      log_likelihood (sigma2_spec N e r) r = Ok (logL_spec N e r)) /\
  (forall (env : @globals R) (theta : list R) (F G H Q e r : Rmatrix),
      (3 <= length theta)%nat -> (1 <= g_N env)%nat ->
      (g_N env <= length (g_y env))%nat ->
      initialize_FGHQ (firstn 3 theta) (firstn 2 (skipn 3 theta))
      = Ok (F, G, H, Q) ->
      kalman_filter 3 (g_N env) F G H (g_y env) = Ok (e, r) ->
      (forall t, (t < g_N env)%nat -> 0 < ent r t 0) ->
      0 < sigma2_spec (g_N env) e r ->
      obj_func_likelihood env theta = Ok (- logL_spec (g_N env) e r)).
Proof.
  split.
  - intros N e r _ He Hr _ _. split.
    + rewrite (sigma_hat_of_Ok He Hr), (sigma_hat_value He Hr). reflexivity.
    + apply log_likelihood_value. exact Hr.
  - intros env theta F G H Q e r Hth _ Hy E0 K0 _ _.
    destruct (obj_func_likelihood_unfold (tr := R_Transc) env theta Hth Hy)
      as [F1 [G1 [H1 [E [_ [_ [_ [_ [_ [K O]]]]]]]]]].
    rewrite E0 in E. injection E as <- <- <- _.
    cbv zeta in K, O. rewrite K0 in K. injection K as He Hr.
    rewrite <- He, <- Hr in O.
    assert (We : wf (g_N env) 1 e) by (rewrite He; apply wf_filled).
    assert (Wr : wf (g_N env) 1 r) by (rewrite Hr; apply wf_filled).
    rewrite O, (sigma_hat_of_Ok We Wr), (sigma_hat_value We Wr).
    cbn [bind]. rewrite (log_likelihood_value _ Wr). reflexivity.
Qed.

End ExactValues.

Section ObjectiveProperties.
Local Open Scope R_scope.


End ObjectiveProperties.

Section BuilderProperties.
Context {T : Type} {ar : Arith T}.

(** The builder never returns empty arrays: the dimension
    [k = max(p, q+1)] is at least 1, the fourth array [Q] is the [k × k]
    identity, and with no coefficient at all it returns [F = [[0]]],
    [G = [[1]]], [H = [[1]]], [Q = [[1]]]. *)
Theorem initialize_FGHQ_never_empty :
  (forall a b : list T,
      exists F G H Q : matrix T,
        initialize_FGHQ a b = Ok (F, G, H, Q) /\
        1 <= length F /\ length G = length F /\ ncols H = length F /\
        wf (length F) (length F) Q /\
        forall i j, i < length F -> j < length F ->
               ent Q i j = if i =? j then one else zero) /\
  initialize_FGHQ (@nil T) [] = Ok ([[zero]], [[one]], [[one]], [[one]]).
Proof.
  split; [|reflexivity].
  intros a b.
  destruct (initialize_FGHQ_entries a b) as [F [G [H [E [WF [WG [WH _]]]]]]].
  set (k := Nat.max (length a) (length b + 1)) in *.
  assert (Hk : 1 <= k) by (unfold k; lia).
  exists F, G, H, (eye k).
  rewrite (wf_length WF), (wf_length WG), (ncols_wf WH (le_n 1)).
  split; [exact E|]. split; [exact Hk|]. split; [reflexivity|].
  split; [reflexivity|]. split; [apply wf_eye|].
  intros i j Hi Hj. apply ent_eye; assumption.
Qed.

End BuilderProperties.

(** ** The further properties on concrete inputs *)

Ltac shape_or_bound :=
  first [ lia | simpl; lia | split; [reflexivity | repeat constructor] ].

Section FloatInstances.
Local Open Scope float_scope.

Lemma kalman_loop_keeps_shapes_witness :
  exists s, kalman_run 1 2 [[0.5]] [[1]] [[1]] [1; 0.5] 1 = Ok s /\
       wf 1 1 (st_x s) /\ wf 1 1 (st_V s) /\
       wf 2 1 (st_e s) /\ wf 2 1 (st_r s).
Proof. apply kalman_loop_keeps_shapes; shape_or_bound. Defined.

Lemma innovation_variances_ignore_observations_witness :
  exists e e' r : matrix float,
    kalman_filter 1 2 [[0.5]] [[1]] [[1]] [1; 0.5] = Ok (e, r) /\
    kalman_filter 1 2 [[0.5]] [[1]] [[1]] [3; 7] = Ok (e', r).
Proof. apply innovation_variances_ignore_observations; shape_or_bound. Defined.

Lemma innovations_are_causal_witness :
  exists e r e' r' : matrix float,
    kalman_filter 1 2 [[0.5]] [[1]] [[1]] [1; 0.5] = Ok (e, r) /\
    kalman_filter 1 2 [[0.5]] [[1]] [[1]] [1; 7] = Ok (e', r') /\
    nth 0 e [] = nth 0 e' [].
Proof.
  apply innovations_are_causal; first [reflexivity | shape_or_bound].
Defined.

End FloatInstances.

Section RealInstances.
Local Open Scope R_scope.

Lemma obj_func_likelihood_reads_prefixes_witness :
  obj_func_likelihood (mk_globals 1 [1; 2]) [1; 0; 0; 0; 0; 7]
  = obj_func_likelihood (mk_globals 1 [1; 3]) [1; 0; 0; 0; 0; 8].
Proof.
  apply (@obj_func_likelihood_reads_prefixes R R_Arith R_Transc
           (mk_globals 1 [1; 2]) (mk_globals 1 [1; 3])
           [1; 0; 0; 0; 0; 7] [1; 0; 0; 0; 0; 8]); reflexivity.
Defined.

Lemma obj_func_likelihood_without_observations_witness :
  exists v : R, obj_func_likelihood (mk_globals 0 [1]) [] = Ok v.
Proof.
  eexists.
  apply (@obj_func_likelihood_without_observations R R_Arith R_Transc
           (mk_globals 0 [1]) []).
  reflexivity.
Defined.

Lemma pass_with_builder_arrays_witness :
  exists (F G H Q e r : Rmatrix) (s : fstate) (x_predict V_predict : Rmatrix),
    initialize_FGHQ [1 / 2] [] = Ok (F, G, H, Q) /\
    kalman_filter 1 2 F G H [1; 1 / 2] = Ok (e, r) /\
    kalman_run 1 2 F G H [1; 1 / 2] 1 = Ok s /\
    kalman_predict F G (st_x s) (st_V s) = Ok (x_predict, V_predict) /\
    (forall i, (i < 1)%nat ->
          ent x_predict i 0
          = nth i [1 / 2] 0 * ent (st_x s) 0 0 + ent (st_x s) (i + 1) 0) /\
    ent e 1 0 = nth 1 [1; 1 / 2] 0 - ent x_predict 0 0 /\
    ent r 1 0 = ent V_predict 0 0.
Proof.
  apply (@pass_with_builder_arrays [1 / 2] [] [1; 1 / 2] 2 1); shape_or_bound.
Defined.

Lemma first_innovation_variance_witness :
  exists F G H Q e r : Rmatrix,
    initialize_FGHQ [1 / 2; 1 / 3] [] = Ok (F, G, H, Q) /\
    kalman_filter 2 2 F G H [1; 1 / 2] = Ok (e, r) /\
    ent r 0 0 = 100 * (nth 0 [1 / 2; 1 / 3] 0 * nth 0 [1 / 2; 1 / 3] 0)
                + (if 2 <=? 2 then 100 else 0) + 1.
Proof.
  apply (@first_innovation_variance [1 / 2; 1 / 3] [] [1; 1 / 2] 2);
    shape_or_bound.
Defined.

Lemma covariance_update_entries_witness :
  exists (F G H Q : Rmatrix) (s s' : fstate) (x_predict P : Rmatrix),
    initialize_FGHQ [1 / 2; 1 / 3] [] = Ok (F, G, H, Q) /\
    kalman_run 2 2 F G H [1; 1 / 2] 1 = Ok s /\
    kalman_predict F G (st_x s) (st_V s) = Ok (x_predict, P) /\
    kalman_run 2 2 F G H [1; 1 / 2] 2 = Ok s' /\
    forall i j, (i < 2)%nat -> (j < 2)%nat ->
           ent (st_V s') i j = ent P i j - ent P i 0 / ent P 0 0 * ent P 0 j.
Proof.
  apply (@covariance_update_entries [1 / 2; 1 / 3] [] [1; 1 / 2] 2 1);
    shape_or_bound.
Defined.


(** In exact arithmetic a run on a series that does not start with [0]
    has positive variances and a positive profiled variance. *)
Lemma exact_run_positive (theta y : list R) (N : nat) :
  (3 <= length theta)%nat -> (1 <= N)%nat -> (N <= length y)%nat ->
  nth 0 y 0 <> 0 ->
  exists F G H Q e r : Rmatrix,
    initialize_FGHQ (firstn 3 theta) (firstn 2 (skipn 3 theta))
    = Ok (F, G, H, Q) /\
    kalman_filter 3 N F G H y = Ok (e, r) /\
    (forall t, (t < N)%nat -> 0 < ent r t 0) /\
    0 < sigma2_spec N e r.
Proof.
  intros Hth HN Hy Hy0.
  destruct (obj_func_likelihood_unfold (tr := R_Transc)
              (mk_globals N y) theta Hth Hy)
    as [F [G [H [E [WF [WG [WH [EG [EH [K _]]]]]]]]]].
  cbv zeta in K. cbn [g_N g_y] in K.
  assert (Hk : (1 <= 3)%nat) by lia.
  assert (HhG : vecmat 3 (ent H 0%nat) (ent G) 0%nat <> 0).
  { rewrite (builder_HG G H Hk EH); [lra|]. rewrite EG. reflexivity. }
  set (e := filled N (spec_e_at 3 F G H y) N) in *.
  set (r := filled N (spec_r_at 3 F G H y) N) in *.
  assert (Hpos : forall t, (t < N)%nat -> 0 < ent r t 0).
  { intros t Ht. unfold r. rewrite (ent_filled _ Ht).
    apply (spec_r_at_positive Hk WF WG WH y HhG). }
  assert (He0 : ent e 0 0 = nth 0 y 0).
  { unfold e. rewrite ent_filled by lia.
    unfold spec_e_at, spec_e. cbn [spec_state fst].
    rewrite (first_prediction_zero Hk WF WH). real_ops. ring. }
  destruct (@sigma2_spec_sign N e r Hpos) as [Hs0 Hsz].
  exists F, G, H, (eye 3), e, r.
  split; [exact E|]. split; [exact K|]. split; [exact Hpos|].
  destruct (Rle_lt_or_eq_dec _ _ Hs0) as [Hlt|Heq]; [exact Hlt|].
  exfalso. apply Hy0. rewrite <- He0.
  apply (proj1 (Hsz HN) (eq_sym Heq)). lia.
Qed.

Lemma objective_exact_value_witness :
  (sigma_hat_of 1 [[1]] [[2]] = Ok (sigma2_spec 1 [[1]] [[2]]) /\
   log_likelihood (sigma2_spec 1 [[1]] [[2]]) [[2]]
   = Ok (logL_spec 1 [[1]] [[2]])) /\
  exists F G H Q e r : Rmatrix,
    initialize_FGHQ (firstn 3 [1; 0; 0]) (firstn 2 (skipn 3 [1; 0; 0]))
    = Ok (F, G, H, Q) /\
    kalman_filter 3 1 F G H [1] = Ok (e, r) /\
    obj_func_likelihood (mk_globals 1 [1]) [1; 0; 0]
    = Ok (- logL_spec 1 e r).
Proof.
  split.
  - apply (proj1 objective_exact_value 1%nat [[1]] [[2]]).
    + lia.
    + split; [reflexivity | repeat constructor].
    + split; [reflexivity | repeat constructor].
    + intros t Ht. destruct t as [|t]; [|lia]. unfold ent. simpl. lra.
    + unfold sigma2_spec, ent. simpl. lra.
  - destruct (@exact_run_positive [1; 0; 0] [1] 1)
      as [F [G [H [Q [e [r [E [K [Hpos Hs]]]]]]]]];
      [simpl; lia | lia | simpl; lia | simpl; lra |].
    exists F, G, H, Q, e, r.
    split; [exact E|]. split; [exact K|].
    apply (proj2 objective_exact_value (mk_globals 1 [1]) [1; 0; 0]
                 F G H Q e r).
    + simpl. lia.
    + simpl. lia.
    + simpl. lia.
    + exact E.
    + exact K.
    + exact Hpos.
    + exact Hs.
Defined.


End RealInstances.
